(** * Graph algorithms of Assignment2/graph_algorithms.cpp

    A shallow embedding of the five entry points [is_empty], [is_connected],
    [connected_components], [dijkstras] and [articulation_points], together
    with the helper [min_distance], and the proofs of their specification.

    The container [weighted_graph<vertex>] (weighted_graph.hpp) and the
    traversal [depth_first] (easy_weighted_graph_algorithms.cpp) are included
    by the source file but are not part of it; they are modelled from the
    written specification of the accessor interface. *)

From stdpp Require Import gmap list fin_maps fin_sets option.

Local Open Scope Z_scope.

(** ** Machine integers *)

(** [std::numeric_limits<int>::max()] for a 32-bit [int]. *)
Definition INT_MAX : Z := 2147483647.
Definition INT_MIN : Z := -2147483648.

(** Two's-complement wrap-around of a mathematical integer into [int]. *)
Definition wrap_int (z : Z) : Z := (z + 2147483648) mod 4294967296 - 2147483648.

(** [int] addition. *)
Definition int_add (a b : Z) : Z := wrap_int (a + b).

(** ** Loops that may fault *)

(** A range-based [for] loop whose body may fault ([None]): the state is
    threaded through the elements in order, and the first fault aborts. *)
Fixpoint for_each {A S : Type} (body : S → A → option S) (l : list A) (s : S)
  : option S :=
  match l with
  | [] => Some s
  | x :: l' => s' ← body s x; for_each body l' s'
  end.

Section graph_model.
Context {vertex : Type} `{Countable vertex} `{Inhabited vertex}.

(** ** The graph accessor *)

(** Modelled from the spec: the class [weighted_graph<vertex>] of
    weighted_graph.hpp is missing.  A graph is a collection of vertices, kept
    in its native enumeration order, plus weighted edges between pairs of
    vertices. *)
Record weighted_graph : Type := WeightedGraph {
  vertices : list vertex;
  weights : gmap (vertex * vertex) Z
}.

(** The invariants of the data model: every vertex is enumerated once, edges
    only connect existing vertices, and adjacency is symmetric with equal
    weight. *)
Record wf_graph (g : weighted_graph) : Prop := WfGraph {
  wf_nodup : NoDup (vertices g);
  wf_edges : ∀ u v w, weights g !! (u, v) = Some w →
                      u ∈ vertices g ∧ v ∈ vertices g;
  wf_sym : ∀ u v, weights g !! (u, v) = weights g !! (v, u)
}.

(** Modelled from the spec: construct an empty graph. *)
Definition empty_graph : weighted_graph := WeightedGraph [] ∅.

(** Modelled from the spec: report the vertex count. *)
Definition num_vertices (g : weighted_graph) : nat := length (vertices g).

(** Modelled from the spec: test adjacency of two vertices. *)
Definition are_adjacent (g : weighted_graph) (u v : vertex) : bool :=
  bool_decide (is_Some (weights g !! (u, v))).

(** Modelled from the spec: get the edge weight of an adjacent pair; it is
    undefined ([None]) when the pair is not adjacent. *)
Definition get_edge_weight (g : weighted_graph) (u v : vertex) : option Z :=
  weights g !! (u, v).

(** Modelled from the spec: enumerate all neighbours of a vertex as
    (neighbour, weight) pairs. *)
Definition neighbours (g : weighted_graph) (u : vertex) : list (vertex * Z) :=
  omap (λ n, (λ w, (n, w)) <$> weights g !! (u, n)) (vertices g).

(** Modelled from the spec: add a vertex (a vertex already present is kept
    once). *)
Definition add_vertex (v : vertex) (g : weighted_graph) : weighted_graph :=
  if decide (v ∈ vertices g) then g
  else WeightedGraph (vertices g ++ [v]) (weights g).

(** Modelled from the spec: add a weighted edge between two existing
    vertices; the edge is undirected, so both directions are recorded. *)
Definition add_edge (u v : vertex) (w : Z) (g : weighted_graph)
  : weighted_graph :=
  if decide (u ∈ vertices g ∧ v ∈ vertices g)
  then WeightedGraph (vertices g) (<[(u, v) := w]> (<[(v, u) := w]> (weights g)))
  else g.

(** Modelled from the spec: remove a vertex and its incident edges. *)
Definition remove_vertex (v : vertex) (g : weighted_graph) : weighted_graph :=
  WeightedGraph
    (filter (λ x, x ≠ v) (vertices g))
    (filter (λ e, e.1.1 ≠ v ∧ e.1.2 ≠ v) (weights g)).

(** ** Traversal *)

(** Modelled from the spec: [depth_first] of
    easy_weighted_graph_algorithms.cpp is missing.  It returns the set of the
    vertices reachable from [start] via edges, [start] included.  The
    exploration is the recursive depth-first one: a vertex not yet visited is
    marked and each of its neighbours is explored in turn.  The recursion
    depth never exceeds the number of vertices, which is the fuel. *)
Fixpoint dfs_visit (fuel : nat) (g : weighted_graph) (visited : gset vertex)
    (u : vertex) : gset vertex :=
  if decide (u ∈ visited) then visited
  else match fuel with
       | O => visited
       | S fuel' =>
           foldl (λ vis n, dfs_visit fuel' g vis n.1)
                 ({[u]} ∪ visited) (neighbours g u)
       end.

Definition depth_first (g : weighted_graph) (start : vertex) : gset vertex :=
  dfs_visit (num_vertices g) g ∅ start.

(** ** Connectivity (graph_algorithms.cpp, lines 21-63) *)

Definition is_empty (g : weighted_graph) : bool :=
  Nat.eqb (num_vertices g) 0.

(** [*(g.cbegin())] is the first vertex of the enumeration; the right operand
    of [||] is evaluated only on a non-empty graph. *)
Definition is_connected (g : weighted_graph) : bool :=
  is_empty g ||
  match vertices g with
  | [] => false
  | first :: _ => Nat.eqb (size (depth_first g first)) (num_vertices g)
  end.

(** The body of the outer loop of [connected_components]: the state is the
    vector [components] and the set [visited].  For an unvisited [u] the
    first inner loop adds the reached vertices to a new component and marks
    them visited; the second rebuilds the edges of each of them. *)
Definition components_step (g : weighted_graph)
    (st : list weighted_graph * gset vertex) (u : vertex)
  : list weighted_graph * gset vertex :=
  let '(components, visited) := st in
  if decide (u ∈ visited) then st
  else
    let reached := elements (depth_first g u) in
    let '(c, visited') :=
      foldl (λ cv v, (add_vertex v cv.1, {[v]} ∪ cv.2))
            (empty_graph, visited) reached in
    let c' :=
      foldl (λ c1 v, foldl (λ c2 e, add_edge v e.1 e.2 c2) c1 (neighbours g v))
            c reached in
    (components ++ [c'], visited').

Definition connected_components (g : weighted_graph) : list weighted_graph :=
  (foldl (components_step g) ([], ∅) (vertices g)).1.

(** ** Shortest paths (graph_algorithms.cpp, lines 66-120) *)

(** The loop of [min_distance].  The state is [(min_vertex, min)];
    [min_vertex] is [None] while the local variable has not been assigned.
    [dijkstras.at(v)] faults on a missing key and is evaluated only when [v]
    is outside [spt_set]. *)
Definition min_distance_step (dist : gmap vertex Z) (spt_set : gset vertex)
    (st : option vertex * Z) (v : vertex) : option (option vertex * Z) :=
  if decide (v ∈ spt_set) then Some st
  else d ← dist !! v;
       if d <=? st.2 then Some (Some v, d) else Some st.

Definition min_distance_scan (g : weighted_graph) (dist : gmap vertex Z)
    (spt_set : gset vertex) : option (option vertex * Z) :=
  for_each (min_distance_step dist spt_set) (vertices g) (None, INT_MAX).

(** [min_distance] returns [min_vertex]; when the loop never assigned it the
    default-constructed vertex is returned. *)
Definition min_distance (g : weighted_graph) (dist : gmap vertex Z)
    (spt_set : gset vertex) : option vertex :=
  st ← min_distance_scan g dist spt_set; Some (default inhabitant st.1).

(** The body of the inner loop of [dijkstras] (lines 106-117): the four
    operands of [&&] are evaluated left to right, each only when the ones
    before it hold. *)
Definition relax (g : weighted_graph) (u : vertex) (spt_set : gset vertex)
    (dist : gmap vertex Z) (v : vertex) : option (gmap vertex Z) :=
  if decide (v ∈ spt_set) then Some dist
  else if negb (are_adjacent g u v) then Some dist
  else du ← dist !! u;
       if du =? INT_MAX then Some dist
       else w ← get_edge_weight g u v;
            dv ← dist !! v;
            if int_add du w <? dv then Some (<[v := int_add du w]> dist)
            else Some dist.

(** The body of the main loop (lines 100-118); the loop variable [g_it1]
    only counts the iterations. *)
Definition dijkstras_step (g : weighted_graph)
    (st : gmap vertex Z * gset vertex) (_ : vertex)
  : option (gmap vertex Z * gset vertex) :=
  u ← min_distance g st.1 st.2;
  let spt_set := {[u]} ∪ st.2 in
  dist ← for_each (relax g u spt_set) (vertices g) st.1;
  Some (dist, spt_set).

(** [std::map::insert] keeps the value of a key that is already present. *)
Definition map_insert_new (v : vertex) (d : Z) (m : gmap vertex Z)
  : gmap vertex Z :=
  match m !! v with Some _ => m | None => <[v := d]> m end.

(** The map before the main loop: every vertex at the sentinel, and the
    source at 0 unless the graph is empty. *)
Definition dijkstras_init (g : weighted_graph) (s : vertex) : gmap vertex Z :=
  let all_inf := foldl (λ m x, map_insert_new x INT_MAX m) ∅ (vertices g) in
  if is_empty g then all_inf else <[s := 0]> all_inf.

(** The state after the main loop has run over the prefix [l] of the
    enumeration. *)
Definition dijkstras_loop (g : weighted_graph) (s : vertex) (l : list vertex)
  : option (gmap vertex Z * gset vertex) :=
  for_each (dijkstras_step g) l (dijkstras_init g s, ∅).

(** [dijkstras]: [None] stands for a fault (a missing-key exception). *)
Definition dijkstras (g : weighted_graph) (s : vertex)
  : option (gmap vertex Z) :=
  fst <$> dijkstras_loop g s (vertices g).

(** ** Articulation points (graph_algorithms.cpp, lines 124-142) *)

(** [test_graph = g] copies the graph by value, so the removal acts on the
    copy of this iteration only. *)
Definition articulation_points (g : weighted_graph) : list vertex :=
  foldl (λ out v,
           let test_graph := remove_vertex v g in
           if negb (is_connected test_graph) then out ++ [v] else out)
        [] (vertices g).

(** ** Paths and what the results have to satisfy *)

(** [edge g u v]: the pair is adjacent. *)
Definition edge (g : weighted_graph) (u v : vertex) : Prop :=
  is_Some (weights g !! (u, v)).

(** [reachable g u v]: some sequence of edges leads from [u] to [v]. *)
Definition reachable (g : weighted_graph) : relation vertex := rtc (edge g).

(** The vertex set of a graph. *)
Definition vertex_set (g : weighted_graph) : gset vertex :=
  list_to_set (vertices g).

(** [path g s t d]: some sequence of edges leads from [s] to [t], and the
    sum of its edge weights is [d]. *)
Inductive path (g : weighted_graph) (s : vertex) : vertex → Z → Prop :=
  | path_start : s ∈ vertices g → path g s s 0
  | path_step v x d w :
      path g s v d → weights g !! (v, x) = Some w → path g s x (d + w).

(** [d] is the minimum sum of edge weights over the paths from [s] to [t]. *)
Definition is_shortest (g : weighted_graph) (s t : vertex) (d : Z) : Prop :=
  path g s t d ∧ ∀ d', path g s t d' → d ≤ d'.

Definition nonneg_weights (g : weighted_graph) : Prop :=
  map_Forall (λ _ w, 0 ≤ w) (weights g).

(** [hop_path g s t n d]: a path from [s] to [t] of exactly [n] edges and
    total weight [d]. *)
Inductive hop_path (g : weighted_graph) (s : vertex)
  : vertex → nat → Z → Prop :=
  | hop_path_start : s ∈ vertices g → hop_path g s s 0 0
  | hop_path_step v x n d w :
      hop_path g s v n d → weights g !! (v, x) = Some w →
      hop_path g s x (S n) (d + w).

(** No path from [s] with fewer edges than the graph has vertices reaches
    the sentinel: the distances that matter are representable. *)
Definition short_paths_bounded (g : weighted_graph) (s : vertex) : Prop :=
  ∀ t n d, hop_path g s t n d → (n < num_vertices g)%nat → d < INT_MAX.

(** [simple_path g s t p d]: a path from [s] to [t] of total weight [d] that
    visits no vertex twice; [p] lists the vertices it visits before [t], the
    latest first. *)
Inductive simple_path (g : weighted_graph) (s : vertex)
  : vertex → list vertex → Z → Prop :=
  | simple_path_start : s ∈ vertices g → simple_path g s s [] 0
  | simple_path_step v x p d w :
      simple_path g s v p d → weights g !! (v, x) = Some w →
      x ≠ v → x ∉ p →
      simple_path g s x (v :: p) (d + w).

(** No path from [s] without a repeated vertex weighs [INT_MAX] or more:
    the sums that the relaxation forms are below the sentinel. *)
Definition simple_paths_bounded (g : weighted_graph) (s : vertex) : Prop :=
  ∀ t p d, simple_path g s t p d → d < INT_MAX.

(** A sufficient bound on the single weights: each one, taken once per
    vertex of the graph, stays below the sentinel. *)
Definition bounded_weights (g : weighted_graph) : Prop :=
  map_Forall (λ _ w, 0 ≤ w ∧ Z.of_nat (num_vertices g) * w < INT_MAX)
             (weights g).


(** Some two vertices of the graph are not joined by any path. *)
Definition disconnected (g : weighted_graph) : Prop :=
  ∃ x y, x ∈ vertices g ∧ y ∈ vertices g ∧ ¬ reachable g x y.

(** [last_minimum g dist spt u d]: [u] is an unprocessed vertex of distance
    [d], no unprocessed vertex has a smaller distance, and every unprocessed
    vertex enumerated after [u] has a strictly larger one. *)
Definition last_minimum (g : weighted_graph) (dist : gmap vertex Z)
    (spt_set : gset vertex) (u : vertex) (d : Z) : Prop :=
  ∃ before after,
    vertices g = before ++ u :: after ∧ (u ∉ spt_set) ∧ dist !! u = Some d ∧
    (∀ v dv, v ∈ before → v ∉ spt_set → dist !! v = Some dv → d ≤ dv) ∧
    (∀ v dv, v ∈ after → v ∉ spt_set → dist !! v = Some dv → d < dv).

(** [first_minimum g dist spt u d]: the same with the tie broken the other
    way, every unprocessed vertex enumerated before [u] being strictly
    farther. *)
Definition first_minimum (g : weighted_graph) (dist : gmap vertex Z)
    (spt_set : gset vertex) (u : vertex) (d : Z) : Prop :=
  ∃ before after,
    vertices g = before ++ u :: after ∧ (u ∉ spt_set) ∧ dist !! u = Some d ∧
    (∀ v dv, v ∈ before → v ∉ spt_set → dist !! v = Some dv → d < dv) ∧
    (∀ v dv, v ∈ after → v ∉ spt_set → dist !! v = Some dv → d ≤ dv).

(** ** Auxiliary functions and invariants of the proofs *)

(** What one call [dfs_visit fuel g vis u] with enough fuel guarantees of its
    result [r]. *)
Definition dfs_post (g : weighted_graph) (vis : gset vertex) (u : vertex)
    (r : gset vertex) : Prop :=
  vis ⊆ r ∧ u ∈ r ∧ r ⊆ vertex_set g ∧
  (∀ x, x ∈ r → x ∉ vis → reachable g u x) ∧
  (∀ x y, x ∈ r → x ∉ vis → edge g x y → y ∈ r).

(** The edges that the second inner loop of [connected_components] adds for
    the vertices [l]: each vertex with each of its neighbours, in order. *)
Definition edges_from (g : weighted_graph) (l : list vertex)
  : list (vertex * vertex * Z) :=
  l ≫= λ v, (λ e : vertex * Z, (v, e.1, e.2)) <$> neighbours g v.

Definition add_edges (es : list (vertex * vertex * Z)) (c : weighted_graph)
  : weighted_graph :=
  foldl (λ c e, add_edge e.1.1 e.1.2 e.2 c) c es.

(** The component graph built for the seed vertex [u]. *)
Definition component_of (g : weighted_graph) (u : vertex) : weighted_graph :=
  let reached := elements (depth_first g u) in
  add_edges (edges_from g reached) (foldl (λ c v, add_vertex v c) empty_graph reached).

(** The graph obtained from the empty one by adding the vertices [vs] and
    then the edges [es], as a client of the container builds it. *)
Definition graph_of (vs : list vertex) (es : list (vertex * vertex * Z))
  : weighted_graph :=
  add_edges es (foldl (λ c v, add_vertex v c) empty_graph vs).

(** The seed vertices of the components: each one is outside [vis] and
    outside what the seeds before it reach. *)
Fixpoint seeds_ok (g : weighted_graph) (vis : gset vertex) (seeds : list vertex)
  : Prop :=
  match seeds with
  | [] => True
  | a :: rest => (a ∉ vis) ∧ seeds_ok g (depth_first g a ∪ vis) rest
  end.

(** The distance of [v] after the body of the inner loop has run for it,
    when [v] is not processed: [du] and [dv] are the distances of [u] and
    [v] before. *)
Definition relaxed (g : weighted_graph) (u : vertex) (du : Z) (v : vertex)
    (dv : Z) : Z :=
  match weights g !! (u, v) with
  | Some w =>
      if du =? INT_MAX then dv
      else if int_add du w <? dv then int_add du w else dv
  | None => dv
  end.

(** After [k] iterations: every vertex has a distance, none above the
    sentinel, and [spt_set] holds exactly [k] vertices of the graph. *)
Definition loop_inv (g : weighted_graph) (k : nat)
    (st : gmap vertex Z * gset vertex) : Prop :=
  (∀ v, v ∈ vertices g → ∃ d, st.1 !! v = Some d ∧ d ≤ INT_MAX) ∧
  st.2 ⊆ vertex_set g ∧ size st.2 = k.

(** What the main loop of [dijkstras] maintains for the source [s] on a
    graph with non-negative weights and [simple_paths_bounded]. *)
Record dijkstra_inv (g : weighted_graph) (s : vertex)
    (st : gmap vertex Z * gset vertex) : Prop := DijkstraInv {
  inv_range : ∀ v, v ∈ vertices g → ∃ d, st.1 !! v = Some d ∧ 0 ≤ d ≤ INT_MAX;
  inv_sound : ∀ v d, v ∈ vertices g → st.1 !! v = Some d → d < INT_MAX →
      ∃ p, simple_path g s v p d ∧ ∀ y, y ∈ p → y ∈ st.2;
  inv_final : ∀ u du d', u ∈ st.2 → st.1 !! u = Some du → path g s u d' →
      du ≤ d' ∧ du < INT_MAX;
  inv_frontier : ∀ u v du dv w,
      u ∈ st.2 → v ∈ vertices g → v ∉ st.2 →
      st.1 !! u = Some du → du < INT_MAX → weights g !! (u, v) = Some w →
      st.1 !! v = Some dv → dv ≤ du + w;
  inv_source : st.1 !! s = Some 0
}.

(** ** What a call may depend on besides its arguments *)

(** [vertex min_vertex;] is not initialised: for a scalar vertex type the
    value it holds until the first assignment is indeterminate.  [junk] is
    that value; [min_distance] is the case of a default-constructed one. *)
Definition min_distance_with (junk : vertex) (g : weighted_graph)
    (dist : gmap vertex Z) (spt_set : gset vertex) : option vertex :=
  st ← min_distance_scan g dist spt_set; Some (default junk st.1).

Definition dijkstras_step_with (junk : vertex) (g : weighted_graph)
    (st : gmap vertex Z * gset vertex) (_ : vertex)
  : option (gmap vertex Z * gset vertex) :=
  u ← min_distance_with junk g st.1 st.2;
  let spt_set := {[u]} ∪ st.2 in
  dist ← for_each (relax g u spt_set) (vertices g) st.1;
  Some (dist, spt_set).

(** The main loop, from its iteration number [i] on: [junk i] is the
    indeterminate value of the [i]-th call of [min_distance]. *)
Fixpoint dijkstras_loop_with (junk : nat → vertex) (g : weighted_graph)
    (i : nat) (l : list vertex) (st : gmap vertex Z * gset vertex)
  : option (gmap vertex Z * gset vertex) :=
  match l with
  | [] => Some st
  | x :: l' =>
      st' ← dijkstras_step_with (junk i) g st x;
      dijkstras_loop_with junk g (S i) l' st'
  end.

Definition dijkstras_with (junk : nat → vertex) (g : weighted_graph)
    (s : vertex) : option (gmap vertex Z) :=
  fst <$> dijkstras_loop_with junk g 0 (vertices g) (dijkstras_init g s, ∅).

(** Modelled from the spec: the order in which [depth_first] explores, and
    in which it returns what it reached, is unspecified.  A traversal is any
    function that returns, each once, the vertices reachable from its
    start. *)
Definition traversal_ok (df : weighted_graph → vertex → list vertex) : Prop :=
  ∀ g u, wf_graph g → u ∈ vertices g →
    NoDup (df g u) ∧ ∀ v, v ∈ df g u ↔ reachable g u v.

(** [is_connected] and [articulation_points] over a given traversal. *)
Definition is_connected_with (df : weighted_graph → vertex → list vertex)
    (g : weighted_graph) : bool :=
  is_empty g ||
  match vertices g with
  | [] => false
  | first :: _ => Nat.eqb (length (df g first)) (num_vertices g)
  end.

Definition articulation_points_with
    (df : weighted_graph → vertex → list vertex) (g : weighted_graph)
  : list vertex :=
  foldl (λ out v,
           let test_graph := remove_vertex v g in
           if negb (is_connected_with df test_graph) then out ++ [v] else out)
        [] (vertices g).

(** ** Calls on a graph owned by the caller *)

(** The entry points take the graph by [const] reference.  To state what a
    call does to the caller's graph, graph objects are placed in a store and
    named by addresses; a command runs on a store and returns a value and
    the store it leaves, or faults. *)
Definition cmd (A : Type) : Type :=
  gmap nat weighted_graph → option (A * gmap nat weighted_graph).

Definition cmd_ret {A : Type} (x : A) : cmd A := λ σ, Some (x, σ).

Definition cmd_bind {A B : Type} (c : cmd A) (k : A → cmd B) : cmd B :=
  λ σ, match c σ with Some (x, σ') => k x σ' | None => None end.

Local Notation "x ←@ c ; k" := (cmd_bind c (λ x, k))
  (at level 20, c at level 100, k at level 200, right associativity).

(** Reading through a reference. *)
Definition read (a : nat) : cmd weighted_graph :=
  λ σ, match σ !! a with Some g => Some (g, σ) | None => None end.

(** Assigning to an object that exists. *)
Definition write (a : nat) (g : weighted_graph) : cmd unit :=
  λ σ, match σ !! a with Some _ => Some (tt, <[a := g]> σ) | None => None end.

(** A local variable: a new object at an unused address, destroyed when
    its scope ends. *)
Definition alloc (g : weighted_graph) : cmd nat :=
  λ σ, Some (fresh (dom σ), <[fresh (dom σ) := g]> σ).

Definition free (a : nat) : cmd unit := λ σ, Some (tt, delete a σ).

Fixpoint cmd_for {A S : Type} (body : S → A → cmd S) (l : list A) (s : S)
  : cmd S :=
  match l with
  | [] => cmd_ret s
  | x :: l' => s' ←@ body s x; cmd_for body l' s'
  end.

(** The body of the loop of [articulation_points] on objects: [test_graph]
    is at [t], the caller's graph at [a]. *)
Definition articulation_body (a t : nat) (out : list vertex) (v : vertex)
  : cmd (list vertex) :=
  g ←@ read a;
  _ ←@ write t g;
  copy ←@ read t;
  _ ←@ write t (remove_vertex v copy);
  remainder ←@ read t;
  cmd_ret (if negb (is_connected remainder) then out ++ [v] else out).

(** [articulation_points] called on the graph at address [a]. *)
Definition articulation_points_at (a : nat) : cmd (list vertex) :=
  t ←@ alloc empty_graph;
  g ←@ read a;
  out ←@ cmd_for (articulation_body a t) (vertices g) [];
  _ ←@ free t;
  cmd_ret out.

(** The exposed operations and what they return. *)
Inductive operation : Type :=
  | OpIsEmpty
  | OpIsConnected
  | OpConnectedComponents
  | OpDijkstras (s : vertex)
  | OpArticulationPoints.

Inductive result : Type :=
  | RBool (b : bool)
  | RGraphs (l : list weighted_graph)
  | RDistances (m : gmap vertex Z)
  | RVertices (l : list vertex).

(** A call of an operation on the graph at address [a]; the four
    operations other than [articulation_points] only read it. *)
Definition call (op : operation) (a : nat) : cmd result :=
  match op with
  | OpIsEmpty => g ←@ read a; cmd_ret (RBool (is_empty g))
  | OpIsConnected => g ←@ read a; cmd_ret (RBool (is_connected g))
  | OpConnectedComponents =>
      g ←@ read a; cmd_ret (RGraphs (connected_components g))
  | OpDijkstras s =>
      g ←@ read a;
      λ σ, match dijkstras g s with
           | Some m => Some (RDistances m, σ)
           | None => None
           end
  | OpArticulationPoints =>
      l ←@ articulation_points_at a; cmd_ret (RVertices l)
  end.

(** The value an operation returns for the graph [g]. *)
Definition eval (op : operation) (g : weighted_graph) : option result :=
  match op with
  | OpIsEmpty => Some (RBool (is_empty g))
  | OpIsConnected => Some (RBool (is_connected g))
  | OpConnectedComponents => Some (RGraphs (connected_components g))
  | OpDijkstras s => RDistances <$> dijkstras g s
  | OpArticulationPoints => Some (RVertices (articulation_points g))
  end.

End graph_model.

(** * Example graphs *)

(** The triangle A, B, C of the specification, with A-B = 1, B-C = 2 and
    A-C = 4; the vertices are numbered 0, 1, 2. *)
Definition triangle : @weighted_graph nat _ _ :=
  graph_of [0; 1; 2]%nat [(0%nat, 1%nat, 1); (1%nat, 2%nat, 2); (0%nat, 2%nat, 4)].

(** The path A - B - C with unit weights. *)
Definition path_graph : @weighted_graph nat _ _ :=
  graph_of [0; 1; 2]%nat [(0%nat, 1%nat, 1); (1%nat, 2%nat, 1)].

(** Two disjoint triangles. *)
Definition two_triangles : @weighted_graph nat _ _ :=
  graph_of [0; 1; 2; 3; 4; 5]%nat
    [(0%nat, 1%nat, 1); (1%nat, 2%nat, 1); (0%nat, 2%nat, 1);
     (3%nat, 4%nat, 1); (4%nat, 5%nat, 1); (3%nat, 5%nat, 1)].



(** Two edges whose sum wraps around. *)
Definition overflow_triangle : @weighted_graph nat _ _ :=
  graph_of [0; 1; 2]%nat
    [(0%nat, 1%nat, 2147483646); (0%nat, 2%nat, 2147483646); (1%nat, 2%nat, 2)].

(** A star whose two leaves are at the same distance from the centre. *)
Definition tie_graph : @weighted_graph nat _ _ :=
  graph_of [0; 1; 2]%nat [(0%nat, 1%nat, 1); (0%nat, 2%nat, 1)].

(** Decide a property of all the edge weights of a concrete graph by
    enumerating the edges. *)
Ltac map_forall_compute :=
  apply map_Forall_to_list;
  match goal with
  | |- Forall _ ?l => let l' := eval vm_compute in l in change l with l'
  end;
  repeat constructor; cbn; unfold INT_MAX; lia.

Section graph_proofs.
Context {vertex : Type} `{Countable vertex} `{Inhabited vertex}.
Implicit Types g c : @weighted_graph vertex _ _.

(** * Properties of the accessor *)

Lemma elem_of_vertex_set g v : v ∈ vertex_set g ↔ v ∈ vertices g.
Proof. unfold vertex_set. by rewrite elem_of_list_to_set. Qed.

Lemma size_vertex_set_le g : (size (vertex_set g) ≤ num_vertices g)%nat.
Proof.
  unfold vertex_set, num_vertices. induction (vertices g) as [|x l IH].
  - rewrite list_to_set_nil, size_empty. simpl. lia.
  - rewrite list_to_set_cons, size_union_alt, size_singleton. simpl.
    assert (size (list_to_set l ∖ {[x]} : gset vertex) ≤ size (list_to_set l : gset vertex))%nat
      by (apply subseteq_size; set_solver).
    lia.
Qed.

Lemma size_vertex_set g : NoDup (vertices g) → size (vertex_set g) = num_vertices g.
Proof. intros. unfold vertex_set, num_vertices. by rewrite size_list_to_set. Qed.

Lemma elem_of_neighbours g u n w :
  (n, w) ∈ neighbours g u ↔ n ∈ vertices g ∧ weights g !! (u, n) = Some w.
Proof.
  unfold neighbours. rewrite list_elem_of_omap. split.
  - intros (x & Hx & Hw). destruct (weights g !! (u, x)) eqn:E; simplify_eq/=. done.
  - intros [Hn Hw]. exists n. by rewrite Hw.
Qed.

Lemma edge_sym g u v : wf_graph g → edge g u v → edge g v u.
Proof. intros Hwf. unfold edge. by rewrite (wf_sym g Hwf u v). Qed.

Lemma reachable_sym g u v : wf_graph g → reachable g u v → reachable g v u.
Proof.
  intros Hwf. induction 1 as [|x y z Hxy _ IH]; [done|].
  eapply rtc_r; [exact IH|]. by apply edge_sym.
Qed.

Lemma reachable_in_graph g u v :
  wf_graph g → u ∈ vertices g → reachable g u v → v ∈ vertices g.
Proof.
  intros Hwf Hu. induction 1 as [|x y z [w Hw] _ IH]; [done|].
  apply IH. by destruct (wf_edges g Hwf _ _ _ Hw).
Qed.

(** * The traversal computes reachability *)

Lemma dfs_fold_post g (visit : gset vertex → vertex → gset vertex) bound :
  (∀ vis n, vis ⊆ vertex_set g → n ∈ vertex_set g →
            (size (vertex_set g ∖ vis) ≤ bound)%nat → dfs_post g vis n (visit vis n)) →
  ∀ (ns : list (vertex * Z)) vis0,
    vis0 ⊆ vertex_set g → (size (vertex_set g ∖ vis0) ≤ bound)%nat →
    (∀ n, n ∈ ns → n.1 ∈ vertex_set g) →
    let r := foldl (λ vis n, visit vis n.1) vis0 ns in
    vis0 ⊆ r ∧ r ⊆ vertex_set g ∧ (∀ n, n ∈ ns → n.1 ∈ r) ∧
    (∀ x, x ∈ r → x ∉ vis0 → ∃ n, n ∈ ns ∧ reachable g n.1 x) ∧
    (∀ x y, x ∈ r → x ∉ vis0 → edge g x y → y ∈ r).
Proof.
  intros Hvisit ns. induction ns as [|n ns IH]; intros vis0 Hsub Hsz Hns; simpl.
  - repeat split; [done..|set_solver|done|done].
  - destruct (Hvisit vis0 n.1) as (H1 & H2 & H3 & H4 & H5);
      [done|apply Hns; left|done|].
    destruct (IH (visit vis0 n.1)) as (I1 & I2 & I3 & I4 & I5); [done| |set_solver|].
    { etrans; [|exact Hsz]. apply subseteq_size. set_solver. }
    repeat split.
    + set_solver.
    + done.
    + intros m [->|Hm]%elem_of_cons; [set_solver|by apply I3].
    + intros x Hx Hnx. destruct (decide (x ∈ visit vis0 n.1)) as [Hin|Hnin].
      * exists n. split; [left|by apply H4].
      * destruct (I4 x Hx Hnin) as (m & Hm & Hr). exists m. split; [by right|done].
    + intros x y Hx Hnx Hxy. destruct (decide (x ∈ visit vis0 n.1)) as [Hin|Hnin].
      * apply I1. by eapply H5.
      * by eapply I5.
Qed.

Lemma dfs_visit_post g :
  wf_graph g →
  ∀ fuel vis u,
    vis ⊆ vertex_set g → u ∈ vertex_set g →
    (size (vertex_set g ∖ vis) ≤ fuel)%nat →
    dfs_post g vis u (dfs_visit fuel g vis u).
Proof.
  intros Hwf fuel. induction fuel as [|fuel IH]; intros vis u Hsub Hu Hsz.
  - simpl. destruct (decide (u ∈ vis)) as [Hin|Hnin].
    + repeat split; [done..|set_solver|set_solver].
    + exfalso. assert (vertex_set g ∖ vis = ∅) as Hemp
        by (apply leibniz_equiv, size_empty_inv; lia).
      set_solver.
  - simpl. destruct (decide (u ∈ vis)) as [Hin|Hnin].
    + repeat split; [done..|set_solver|set_solver].
    + assert (size (vertex_set g ∖ ({[u]} ∪ vis)) < size (vertex_set g ∖ vis))%nat.
      { apply subset_size. set_solver. }
      destruct (dfs_fold_post g (dfs_visit fuel g) fuel IH (neighbours g u) ({[u]} ∪ vis))
        as (F1 & F2 & F3 & F4 & F5); [set_solver|lia| |].
      { intros [n w] [Hn _]%elem_of_neighbours. by apply elem_of_vertex_set. }
      repeat split.
      * set_solver.
      * set_solver.
      * done.
      * intros x Hx Hnx. destruct (decide (x = u)) as [->|Hne]; [done|].
        destruct (F4 x Hx) as ([n w] & [Hn Hw]%elem_of_neighbours & Hr); [set_solver|].
        eapply rtc_l; [|exact Hr]. by exists w.
      * intros x y Hx Hnx Hxy. destruct (decide (x = u)) as [->|Hne].
        -- destruct Hxy as [w Hw].
           apply (F3 (y, w)), elem_of_neighbours. split; [|done].
           by destruct (wf_edges g Hwf _ _ _ Hw).
        -- eapply F5; [done|set_solver|done].
Qed.

Lemma elem_of_depth_first g u v :
  wf_graph g → u ∈ vertices g → v ∈ depth_first g u ↔ reachable g u v.
Proof.
  intros Hwf Hu.
  destruct (dfs_visit_post g Hwf (num_vertices g) ∅ u) as (_ & D2 & _ & D4 & D5).
  { set_solver. } { by apply elem_of_vertex_set. }
  { etrans; [|apply size_vertex_set_le]. apply subseteq_size. set_solver. }
  split.
  - intros Hv. apply D4; [done|set_solver].
  - revert v. apply rtc_ind_r; [done|].
    intros y z _ Hyz IH. eapply D5; [exact IH|set_solver|done].
Qed.

Lemma depth_first_subseteq g u :
  wf_graph g → u ∈ vertices g → depth_first g u ⊆ vertex_set g.
Proof.
  intros Hwf Hu v Hv. apply elem_of_vertex_set.
  eapply reachable_in_graph; [done..|]. by apply elem_of_depth_first.
Qed.

(** * Connectivity *)

Lemma is_empty_true g : is_empty g = true ↔ vertices g = [].
Proof.
  unfold is_empty, num_vertices. rewrite Nat.eqb_eq. by destruct (vertices g).
Qed.

(** The traversal reaches every vertex exactly when its size is the vertex
    count. *)
Lemma depth_first_size g u :
  wf_graph g → u ∈ vertices g →
  size (depth_first g u) = num_vertices g ↔ depth_first g u = vertex_set g.
Proof.
  intros Hwf Hu. rewrite <-(size_vertex_set g) by apply Hwf. split.
  - intros Hsz.
    pose proof (set_subseteq_size_eq (depth_first g u) (vertex_set g)) as Heq.
    apply Heq; [by apply depth_first_subseteq|lia].
  - by intros ->.
Qed.

(** [is_connected] decides that every two vertices are joined by a path. *)
Lemma is_connected_spec g :
  wf_graph g →
  is_connected g = true ↔
  ∀ x y, x ∈ vertices g → y ∈ vertices g → reachable g x y.
Proof.
  intros Hwf. unfold is_connected.
  destruct (vertices g) as [|f l] eqn:Hvs.
  - replace (is_empty g) with true by (symmetry; by apply is_empty_true).
    split; [|done]. intros _ x y Hx. by apply elem_of_nil in Hx.
  - replace (is_empty g) with false.
    2:{ symmetry. apply not_true_is_false. rewrite is_empty_true. congruence. }
    assert (f ∈ vertices g) as Hf by (rewrite Hvs; left).
    simpl. rewrite Nat.eqb_eq, depth_first_size by done. rewrite <-Hvs. split.
    + intros Heq x y Hx Hy.
      assert (reachable g f x) as Hfx
        by (by apply elem_of_depth_first; [..|rewrite Heq; apply elem_of_vertex_set]).
      assert (reachable g f y) as Hfy
        by (by apply elem_of_depth_first; [..|rewrite Heq; apply elem_of_vertex_set]).
      etrans; [|exact Hfy]. by apply reachable_sym.
    + intros Hall. apply set_eq. intros x. rewrite elem_of_vertex_set. split.
      * intros Hx. eapply reachable_in_graph; [done..|]. by apply elem_of_depth_first.
      * intros Hx. apply elem_of_depth_first; [done..|]. by apply Hall.
Qed.

(** * Building graphs *)

Lemma add_vertex_vertex_set v g :
  vertex_set (add_vertex v g) = {[v]} ∪ vertex_set g.
Proof.
  unfold add_vertex, vertex_set. case_decide; simpl.
  - set_solver.
  - rewrite list_to_set_app_L. set_solver.
Qed.

Lemma add_vertex_weights v g : weights (add_vertex v g) = weights g.
Proof. unfold add_vertex. by case_decide. Qed.

Lemma add_vertex_nodup v g : NoDup (vertices g) → NoDup (vertices (add_vertex v g)).
Proof.
  intros Hnd. unfold add_vertex. case_decide; [done|]. simpl.
  apply list.NoDup_app. split_and!; [done| |apply NoDup_singleton].
  intros x Hx ->%list_elem_of_singleton. done.
Qed.

Lemma add_edge_vertices u v w g : vertices (add_edge u v w g) = vertices g.
Proof. unfold add_edge. by case_decide. Qed.

Lemma add_edge_weights u v w g :
  u ∈ vertices g → v ∈ vertices g →
  weights (add_edge u v w g) = <[(u, v) := w]> (<[(v, u) := w]> (weights g)).
Proof. intros Hu Hv. unfold add_edge. rewrite decide_True; done. Qed.

(** The first inner loop of [connected_components] adds the reached vertices
    and marks them visited. *)
Lemma add_vertices_fold (l : list vertex) (c : weighted_graph)
    (vis : gset vertex) :
  foldl (λ (cv : weighted_graph * gset vertex) v,
           (add_vertex v cv.1, {[v]} ∪ cv.2)) (c, vis) l
  = (foldl (λ c v, add_vertex v c) c l, list_to_set l ∪ vis).
Proof.
  revert c vis. induction l as [|x l IH]; intros c vis; simpl.
  - f_equal. set_solver.
  - rewrite IH. f_equal. set_solver.
Qed.

Lemma add_vertices_spec (l : list vertex) c :
  let c' := foldl (λ c v, add_vertex v c) c l in
  vertex_set c' = list_to_set l ∪ vertex_set c ∧ weights c' = weights c ∧
  (NoDup (vertices c) → NoDup (vertices c')).
Proof.
  revert c. induction l as [|x l IH]; intros c; simpl.
  - split_and!; [set_solver|done..].
  - destruct (IH (add_vertex x c)) as (I1 & I2 & I3). split_and!.
    + rewrite I1, add_vertex_vertex_set. set_solver.
    + by rewrite I2, add_vertex_weights.
    + intros Hnd. by apply I3, add_vertex_nodup.
Qed.

Lemma rebuild_edges_flat g (l : list vertex) (c : weighted_graph) :
  foldl (λ c1 v, foldl (λ c2 (e : vertex * Z), add_edge v e.1 e.2 c2) c1 (neighbours g v)) c l
  = add_edges (edges_from g l) c.
Proof.
  unfold add_edges, edges_from. revert c. induction l as [|v l IH]; intros c; [done|].
  simpl. rewrite foldl_app, foldl_fmap. simpl. apply IH.
Qed.

Lemma components_step_eq g cs vis u :
  components_step g (cs, vis) u =
  if decide (u ∈ vis) then (cs, vis)
  else (cs ++ [component_of g u], depth_first g u ∪ vis).
Proof.
  unfold components_step. case_decide; [done|].
  rewrite add_vertices_fold, rebuild_edges_flat, list_to_set_elements_L. done.
Qed.

Lemma elem_of_edges_from g l a b w :
  (a, b, w) ∈ edges_from g l ↔
  a ∈ l ∧ b ∈ vertices g ∧ weights g !! (a, b) = Some w.
Proof.
  unfold edges_from. rewrite list_elem_of_bind. split.
  - intros (v & ([n w'] & ? & Hn%elem_of_neighbours)%list_elem_of_fmap & Hv).
    simplify_eq/=. naive_solver.
  - intros (Ha & Hb & Hw). exists a. split; [|done].
    apply list_elem_of_fmap. exists (b, w). split; [done|].
    by apply elem_of_neighbours.
Qed.

(** Adding edges copied from [g] between existing vertices. *)
Lemma add_edges_spec g (es : list (vertex * vertex * Z)) (c : weighted_graph) :
  (∀ a b w, (a, b, w) ∈ es →
     a ∈ vertices c ∧ b ∈ vertices c ∧
     weights g !! (a, b) = Some w ∧ weights g !! (b, a) = Some w) →
  (∀ a b w, weights c !! (a, b) = Some w → weights g !! (a, b) = Some w) →
  vertices (add_edges es c) = vertices c ∧
  (∀ a b w, weights (add_edges es c) !! (a, b) = Some w ↔
     weights g !! (a, b) = Some w ∧
     (weights c !! (a, b) = Some w ∨ (a, b, w) ∈ es ∨ (b, a, w) ∈ es)).
Proof.
  unfold add_edges. revert c. induction es as [|[[u v] x] es IH]; intros c Hes Hc; simpl.
  - split; [done|]. intros a b w. rewrite !elem_of_nil. naive_solver.
  - destruct (Hes u v x) as (Hu & Hv & Hg1 & Hg2); [left|].
    destruct (IH (add_edge u v x c)) as [I1 I2].
    { intros a b w Hab. rewrite add_edge_vertices. apply Hes. by right. }
    { intros a b w. rewrite add_edge_weights by done.
      rewrite !lookup_insert. repeat case_decide; naive_solver. }
    split; [by rewrite I1, add_edge_vertices|].
    intros a b w. rewrite I2, add_edge_weights by done.
    rewrite !lookup_insert, !elem_of_cons.
    repeat case_decide; naive_solver.
Qed.

(** The component of a seed vertex has the reached vertices and the edges
    of [g] induced on them. *)
Lemma component_of_spec g u :
  wf_graph g → u ∈ vertices g →
  vertex_set (component_of g u) = depth_first g u ∧
  NoDup (vertices (component_of g u)) ∧
  (∀ a b w, weights (component_of g u) !! (a, b) = Some w ↔
     a ∈ depth_first g u ∧ weights g !! (a, b) = Some w).
Proof.
  intros Hwf Hu. unfold component_of.
  set (reached := elements (depth_first g u)).
  destruct (add_vertices_spec reached empty_graph) as (V1 & V2 & V3).
  set (c0 := foldl (λ c v, add_vertex v c) empty_graph reached) in *.
  assert (vertex_set c0 = depth_first g u) as Hc0.
  { rewrite V1. unfold reached. rewrite list_to_set_elements_L.
    unfold vertex_set. simpl. set_solver. }
  assert (∀ a b, a ∈ depth_first g u → edge g a b → b ∈ depth_first g u) as Hclosed.
  { intros a b Ha Hab. apply elem_of_depth_first; [done..|].
    eapply rtc_r; [|exact Hab]. by apply elem_of_depth_first. }
  destruct (add_edges_spec g (edges_from g reached) c0) as [E1 E2].
  { intros a b w (Ha & Hb & Hw)%elem_of_edges_from.
    apply elem_of_elements in Ha.
    rewrite <-!elem_of_vertex_set, Hc0. split_and!; [done| |done|].
    - eapply Hclosed; [done|by exists w].
    - by rewrite <-(wf_sym g Hwf). }
  { intros a b w. rewrite V2. simpl. by rewrite lookup_empty. }
  split_and!.
  - unfold vertex_set in *. by rewrite E1.
  - rewrite E1. apply V3. simpl. constructor.
  - intros a b w. rewrite E2, V2. simpl. rewrite lookup_empty.
    rewrite !elem_of_edges_from. unfold reached. rewrite !elem_of_elements. split.
    + intros (Hg & [?|[(Ha & _)|(Hb & _)]]); [done| |]; split; try done.
      eapply Hclosed; [exact Hb|]. exists w. by rewrite (wf_sym g Hwf).
    + intros [Ha Hg]. split; [done|]. right. left. split_and!; [done| |done].
      by destruct (wf_edges g Hwf _ _ _ Hg).
Qed.

Lemma component_of_wf g u :
  wf_graph g → u ∈ vertices g → wf_graph (component_of g u).
Proof.
  intros Hwf Hu. destruct (component_of_spec g u Hwf Hu) as (C1 & C2 & C3).
  assert (∀ a b, a ∈ depth_first g u → edge g a b → b ∈ depth_first g u) as Hclosed.
  { intros a b Ha Hab. apply elem_of_depth_first; [done..|].
    eapply rtc_r; [|exact Hab]. by apply elem_of_depth_first. }
  split; [done| |].
  - intros a b w [Ha Hw]%C3. rewrite <-!elem_of_vertex_set, C1.
    split; [done|]. eapply Hclosed; [done|by exists w].
  - intros a b. apply option_eq. intros w. rewrite !C3.
    rewrite (wf_sym g Hwf a b). split; intros [Hx Hw]; (split; [|done]).
    + eapply Hclosed; [exact Hx|]. exists w. by rewrite (wf_sym g Hwf).
    + eapply Hclosed; [exact Hx|]. by exists w.
Qed.

Lemma component_of_reachable g u a b :
  wf_graph g → u ∈ vertices g →
  a ∈ depth_first g u → reachable g a b → reachable (component_of g u) a b.
Proof.
  intros Hwf Hu Ha Hab. destruct (component_of_spec g u Hwf Hu) as (_ & _ & C3).
  induction Hab as [|x y z [w Hw] _ IH]; [done|].
  eapply rtc_l.
  - exists w. apply C3. done.
  - apply IH. apply elem_of_depth_first; [done..|].
    eapply rtc_r; [by apply elem_of_depth_first|by exists w].
Qed.

Lemma component_of_connected g u :
  wf_graph g → u ∈ vertices g →
  vertices (component_of g u) ≠ [] ∧ is_connected (component_of g u) = true.
Proof.
  intros Hwf Hu. destruct (component_of_spec g u Hwf Hu) as (C1 & _ & _).
  assert (u ∈ depth_first g u) as Huu by (by apply elem_of_depth_first).
  split.
  - intros Hnil. rewrite <-C1 in Huu. apply elem_of_vertex_set in Huu.
    rewrite Hnil in Huu. by apply elem_of_nil in Huu.
  - apply is_connected_spec; [by apply component_of_wf|].
    intros x y. rewrite <-!elem_of_vertex_set, C1. intros Hx Hy.
    apply component_of_reachable; [done..|].
    etrans; [apply reachable_sym; [done|]|]; by apply elem_of_depth_first.
Qed.

(** * The components loop *)

Lemma components_loop_spec g (l : list vertex) cs vis :
  wf_graph g → (∀ v, v ∈ l → v ∈ vertices g) →
  ∃ seeds,
    (foldl (components_step g) (cs, vis) l).1 = cs ++ (component_of g <$> seeds) ∧
    (foldl (components_step g) (cs, vis) l).2 = (⋃ (depth_first g <$> seeds)) ∪ vis ∧
    (∀ a, a ∈ seeds → a ∈ l) ∧ seeds_ok g vis seeds ∧
    (∀ v, v ∈ l → v ∈ (⋃ (depth_first g <$> seeds)) ∪ vis).
Proof.
  intros Hwf. revert cs vis. induction l as [|u l IH]; intros cs vis Hl; cbn [foldl].
  - exists []. simpl. rewrite app_nil_r.
    split_and!; [done|set_solver|done..|]. intros v Hv. by apply elem_of_nil in Hv.
  - assert (∀ v, v ∈ l → v ∈ vertices g) as Hl' by (intros v Hv; apply Hl; by right).
    rewrite components_step_eq. case_decide as Hu.
    + destruct (IH cs vis Hl') as (seeds & I1 & I2 & I3 & I4 & I5).
      exists seeds. split_and!; [done..| |done|].
      * intros a Ha. right. by apply I3.
      * intros v [->|Hv]%elem_of_cons; [set_solver|by apply I5].
    + destruct (IH (cs ++ [component_of g u]) (depth_first g u ∪ vis) Hl')
        as (seeds & I1 & I2 & I3 & I4 & I5).
      assert (u ∈ depth_first g u) as Huu.
      { apply elem_of_depth_first; [done|apply Hl; left|done]. }
      exists (u :: seeds). simpl. split_and!.
      * by rewrite I1, <-app_assoc.
      * rewrite I2. set_solver.
      * intros a [->|Ha]%elem_of_cons; [left|right; by apply I3].
      * done.
      * done.
      * intros v [->|Hv]%elem_of_cons; [set_solver|].
        specialize (I5 v Hv). set_solver.
Qed.

Lemma seeds_ok_not_visited g vis seeds b :
  seeds_ok g vis seeds → b ∈ seeds → b ∉ vis.
Proof.
  revert vis. induction seeds as [|a rest IH]; intros vis Hok Hb; simpl in *.
  - by apply elem_of_nil in Hb.
  - destruct Hok as [Ha Hrest]. apply elem_of_cons in Hb as [->|Hb]; [done|].
    specialize (IH _ Hrest Hb). set_solver.
Qed.

(** What two seeds reach is disjoint when the later one is not reached from
    the earlier one. *)
Lemma depth_first_disjoint g a b :
  wf_graph g → a ∈ vertices g → b ∈ vertices g →
  b ∉ depth_first g a → depth_first g a ## depth_first g b.
Proof.
  intros Hwf Ha Hb Hnot x Hxa Hxb. apply Hnot.
  apply elem_of_depth_first in Hxa; [|done..].
  apply elem_of_depth_first in Hxb; [|done..].
  apply elem_of_depth_first; [done..|].
  etrans; [exact Hxa|]. by apply reachable_sym.
Qed.

Lemma seeds_ok_disjoint g vis seeds i j a b :
  wf_graph g → (∀ x, x ∈ seeds → x ∈ vertices g) → seeds_ok g vis seeds →
  i ≠ j → seeds !! i = Some a → seeds !! j = Some b →
  depth_first g a ## depth_first g b.
Proof.
  intros Hwf. revert vis i j. induction seeds as [|x rest IH];
    intros vis i j Hin Hok Hij Hi Hj; [done|].
  destruct Hok as [Hx Hrest].
  assert (∀ y, y ∈ rest → y ∉ depth_first g x) as Hfresh.
  { intros y Hy. pose proof (seeds_ok_not_visited _ _ _ _ Hrest Hy). set_solver. }
  destruct i as [|i], j as [|j]; simplify_eq/=.
  - apply depth_first_disjoint; [done|apply Hin; left|apply Hin; right|].
    + by eapply list_elem_of_lookup_2.
    + apply Hfresh. by eapply list_elem_of_lookup_2.
  - symmetry. apply depth_first_disjoint; [done|apply Hin; left|apply Hin; right|].
    + by eapply list_elem_of_lookup_2.
    + apply Hfresh. by eapply list_elem_of_lookup_2.
  - eapply (IH _ i j); [|done| |done..]; [|congruence].
    intros y Hy. apply Hin. by right.
Qed.

(** [connected_components] returns the components of its seeds, which
    together reach every vertex. *)
Lemma connected_components_seeds g :
  wf_graph g →
  ∃ seeds,
    connected_components g = component_of g <$> seeds ∧
    (∀ a, a ∈ seeds → a ∈ vertices g) ∧ seeds_ok g ∅ seeds ∧
    (∀ v, v ∈ vertices g → v ∈ ⋃ (depth_first g <$> seeds)).
Proof.
  intros Hwf. unfold connected_components.
  destruct (components_loop_spec g (vertices g) [] ∅ Hwf)
    as (seeds & I1 & I2 & I3 & I4 & I5); [done|].
  exists seeds. split_and!; [done..|].
  intros v Hv. specialize (I5 v Hv). set_solver.
Qed.

Lemma components_vertex_sets g (seeds : list vertex) :
  wf_graph g → (∀ a, a ∈ seeds → a ∈ vertices g) →
  vertex_set <$> (component_of g <$> seeds) = depth_first g <$> seeds.
Proof.
  intros Hwf Hin. rewrite <-list_fmap_compose.
  apply list_fmap_ext. intros i a Ha. simpl.
  apply component_of_spec; [done|]. apply Hin. by eapply list_elem_of_lookup_2.
Qed.

(** C2: the vertex sets of the graphs returned by [connected_components]
    have the vertex set of the input graph as their union and are pairwise
    disjoint. *)
Theorem connected_components_partition g :
  wf_graph g →
  ⋃ (vertex_set <$> connected_components g) = vertex_set g ∧
  ∀ i j ci cj, i ≠ j →
    connected_components g !! i = Some ci →
    connected_components g !! j = Some cj →
    vertex_set ci ## vertex_set cj.
Proof.
  intros Hwf.
  destruct (connected_components_seeds g Hwf) as (seeds & -> & Hin & Hok & Hcov).
  split.
  - rewrite components_vertex_sets by done. apply set_eq. intros v. split.
    + intros (R & (a & -> & Ha)%list_elem_of_fmap & Hv)%elem_of_union_list.
      by apply (depth_first_subseteq g a Hwf (Hin a Ha)).
    + intros Hv%elem_of_vertex_set. by apply Hcov.
  - intros i j ci cj Hij Hi Hj.
    apply list_lookup_fmap_Some in Hi as (a & -> & Ha).
    apply list_lookup_fmap_Some in Hj as (b & -> & Hb).
    destruct (component_of_spec g a Hwf) as (-> & _); [by eapply Hin, list_elem_of_lookup_2|].
    destruct (component_of_spec g b Hwf) as (-> & _); [by eapply Hin, list_elem_of_lookup_2|].
    by eapply seeds_ok_disjoint.
Qed.

(** C10: every graph returned by [connected_components] is non-empty and
    connected. *)
Theorem connected_components_connected g c :
  wf_graph g → c ∈ connected_components g →
  is_empty c = false ∧ is_connected c = true.
Proof.
  intros Hwf Hc.
  destruct (connected_components_seeds g Hwf) as (seeds & Heq & Hin & _).
  rewrite Heq in Hc. apply list_elem_of_fmap in Hc as (a & -> & Ha).
  destruct (component_of_connected g a Hwf (Hin a Ha)) as [Hne Hconn].
  split; [|done]. apply not_true_is_false. by rewrite is_empty_true.
Qed.

(** C3: [is_connected] holds exactly when [connected_components] returns one
    component or the graph has no vertex; on a graph without vertices
    [connected_components] returns no component and [is_connected] is
    true. *)
Theorem is_connected_iff_one_component g :
  wf_graph g →
  (is_connected g = true ↔
     length (connected_components g) = 1%nat ∨ num_vertices g = 0%nat) ∧
  (num_vertices g = 0%nat →
     connected_components g = [] ∧ is_connected g = true).
Proof.
  intros Hwf.
  assert (num_vertices g = 0%nat ↔ vertices g = []) as Hzero.
  { unfold num_vertices. by destruct (vertices g). }
  rewrite !Hzero. split.
  2:{ intros Hnil. unfold is_connected, is_empty, num_vertices, connected_components.
      by rewrite Hnil. }
  destruct (connected_components_seeds g Hwf) as (seeds & Heq & Hin & Hok & Hcov).
  rewrite Heq, length_fmap, is_connected_spec by done.
  split.
  - intros Hall. destruct seeds as [|a [|b rest]].
    + right. destruct (vertices g) as [|v l]; [done|].
      specialize (Hcov v). simpl in Hcov. set_solver.
    + by left.
    + exfalso. destruct Hok as [_ [Hb _]]. apply Hb.
      apply elem_of_union_l. apply elem_of_depth_first; [done|apply Hin; left|].
      apply Hall; apply Hin; [left|right; left].
  - intros [Hone|Hnil] x y Hx Hy.
    + destruct seeds as [|a [|? ?]]; simplify_eq/=.
      assert (a ∈ vertices g) as Ha by (apply Hin; left).
      assert (∀ v, v ∈ vertices g → reachable g a v) as Hreach.
      { intros v Hv. apply elem_of_depth_first; [done..|].
        specialize (Hcov v Hv). set_solver. }
      etrans; [apply reachable_sym; [done|]|]; by apply Hreach.
    + rewrite Hnil in Hx. by apply elem_of_nil in Hx.
Qed.

(** * The linear scan of [min_distance] *)

Lemma min_distance_step_skip (dist : gmap vertex Z) (spt_set : gset vertex) st v :
  v ∈ spt_set → min_distance_step dist spt_set st v = Some st.
Proof. intros. unfold min_distance_step. by rewrite decide_True. Qed.

Lemma min_distance_step_take (dist : gmap vertex Z) (spt_set : gset vertex) st v d :
  v ∉ spt_set → dist !! v = Some d →
  min_distance_step dist spt_set st v
  = Some (if d <=? st.2 then (Some v, d) else st).
Proof.
  intros Hv Hd. unfold min_distance_step. rewrite decide_False, Hd by done.
  simpl. by destruct (d <=? st.2).
Qed.

Lemma min_distance_loop_spec (dist : gmap vertex Z) (spt_set : gset vertex)
    (l : list vertex) (mv : option vertex) (mn : Z) :
  (∀ v, v ∈ l → v ∉ spt_set → is_Some (dist !! v)) →
  ∃ mv' mn',
    for_each (min_distance_step dist spt_set) l (mv, mn) = Some (mv', mn') ∧
    ((mv' = mv ∧ mn' = mn ∧
      ∀ v dv, v ∈ l → v ∉ spt_set → dist !! v = Some dv → mn < dv) ∨
     (∃ before u after,
        l = before ++ u :: after ∧ mv' = Some u ∧ (u ∉ spt_set) ∧
        dist !! u = Some mn' ∧ mn' ≤ mn ∧
        (∀ v dv, v ∈ before → v ∉ spt_set → dist !! v = Some dv → mn' ≤ dv) ∧
        (∀ v dv, v ∈ after → v ∉ spt_set → dist !! v = Some dv → mn' < dv))).
Proof.
  revert mv mn. induction l as [|x l IH]; intros mv mn Hdom.
  - exists mv, mn. split; [done|]. left. split_and!; [done..|].
    intros v dv Hv. by apply elem_of_nil in Hv.
  - assert (∀ v, v ∈ l → v ∉ spt_set → is_Some (dist !! v)) as Hdom'
      by (intros v Hv; apply Hdom; by right).
    cbn [for_each].
    destruct (decide (x ∈ spt_set)) as [Hx|Hx].
    + rewrite min_distance_step_skip by done. cbn [mbind option_bind].
      destruct (IH mv mn Hdom') as (mv' & mn' & -> & Hcase).
      exists mv', mn'. split; [done|].
      destruct Hcase as [(-> & -> & Hall)|(before & u & after & -> & ? & ? & ? & ? & Hb & Ha)].
      * left. split_and!; [done..|].
        intros v dv [->|Hv]%elem_of_cons; [done|by apply Hall].
      * right. exists (x :: before), u, after. split_and!; [done..| |done].
        intros v dv [->|Hv]%elem_of_cons; [done|by apply Hb].
    + destruct (Hdom x) as [d Hd]; [left|done|].
      rewrite (min_distance_step_take _ _ _ _ d) by done. cbn [mbind option_bind snd].
      destruct (Z.leb_spec d mn) as [Hle|Hgt].
      * destruct (IH (Some x) d Hdom') as (mv' & mn' & -> & Hcase).
        exists mv', mn'. split; [done|]. right.
        destruct Hcase as [(-> & -> & Hall)|(before & u & after & -> & ? & ? & ? & ? & Hb & Ha)].
        -- exists [], x, l. split_and!; [done..| |done].
           intros v dv Hv. by apply elem_of_nil in Hv.
        -- exists (x :: before), u, after. split_and!; [done..|lia| |done].
           intros v dv [->|Hv]%elem_of_cons; [|by apply Hb].
           intros _ ?. simplify_eq. done.
      * destruct (IH mv mn Hdom') as (mv' & mn' & -> & Hcase).
        exists mv', mn'. split; [done|].
        destruct Hcase as [(-> & -> & Hall)|(before & u & after & -> & ? & ? & ? & ? & Hb & Ha)].
        -- left. split_and!; [done..|].
           intros v dv [->|Hv]%elem_of_cons; [|by apply Hall].
           intros _ ?. simplify_eq. done.
        -- right. exists (x :: before), u, after. split_and!; [done..| |done].
           intros v dv [->|Hv]%elem_of_cons; [|by apply Hb].
           intros _ ?. simplify_eq. lia.
Qed.

(** With some unprocessed vertex at distance at most [INT_MAX], the scan
    assigns [min_vertex], and the vertex returned is the last one of
    minimum distance. *)
Lemma min_distance_scan_spec g (dist : gmap vertex Z) (spt_set : gset vertex) :
  (∀ v, v ∈ vertices g → v ∉ spt_set →
        ∃ d, dist !! v = Some d ∧ d ≤ INT_MAX) →
  (∃ v, v ∈ vertices g ∧ v ∉ spt_set) →
  ∃ u d, min_distance_scan g dist spt_set = Some (Some u, d) ∧
         last_minimum g dist spt_set u d.
Proof.
  intros Hdom (v0 & Hv0 & Hv0').
  destruct (min_distance_loop_spec dist spt_set (vertices g) None INT_MAX)
    as (mv' & mn' & Hscan & Hcase).
  { intros v Hv Hv'. destruct (Hdom v Hv Hv') as (d & -> & _). by eexists. }
  destruct Hcase as [(-> & -> & Hall)|(before & u & after & Hl & -> & ? & ? & ? & Hb & Ha)].
  - exfalso. destruct (Hdom v0 Hv0 Hv0') as (d & Hd & Hle).
    specialize (Hall v0 d Hv0 Hv0' Hd). lia.
  - exists u, mn'. split; [done|]. by exists before, after.
Qed.

(** * The relaxation loop *)

Lemma relaxed_le g u du v dv : relaxed g u du v dv ≤ dv.
Proof.
  unfold relaxed. destruct (weights g !! (u, v)); [|lia].
  destruct (du =? INT_MAX); [lia|].
  destruct (Z.ltb_spec (int_add du z) dv); lia.
Qed.

Lemma relaxed_idemp g u du v dv :
  relaxed g u du v (relaxed g u du v dv) = relaxed g u du v dv.
Proof.
  unfold relaxed. destruct (weights g !! (u, v)); [|done].
  destruct (du =? INT_MAX); [done|].
  destruct (Z.ltb_spec (int_add du z) dv) as [Hlt|Hge].
  - by rewrite Z.ltb_irrefl.
  - destruct (Z.ltb_spec (int_add du z) dv); [lia|done].
Qed.

Lemma relax_eq g u (spt_set : gset vertex) (dist : gmap vertex Z) v du dv :
  dist !! u = Some du → dist !! v = Some dv →
  relax g u spt_set dist v
  = Some (if decide (v ∈ spt_set) then dist
          else <[v := relaxed g u du v dv]> dist).
Proof.
  intros Hu Hv. unfold relax, relaxed, are_adjacent, get_edge_weight.
  case_decide; [done|].
  destruct (weights g !! (u, v)) as [w|] eqn:Hw.
  - rewrite bool_decide_eq_true_2 by (by eexists). simpl. rewrite Hu. simpl.
    destruct (du =? INT_MAX); [by rewrite insert_id|].
    rewrite Hv. simpl. destruct (int_add du w <? dv); [done|by rewrite insert_id].
  - rewrite bool_decide_eq_false_2 by (by intros [? ?]). simpl. by rewrite insert_id.
Qed.

(** The inner loop of [dijkstras] never faults, and relaxes every
    unprocessed vertex of the list once. *)
Lemma relax_loop_spec g u (spt_set : gset vertex) du (l : list vertex)
    (dist : gmap vertex Z) :
  u ∈ spt_set → dist !! u = Some du →
  (∀ v, v ∈ l → is_Some (dist !! v)) →
  ∃ dist',
    for_each (relax g u spt_set) l dist = Some dist' ∧
    ∀ x, dist' !! x =
         if decide (x ∈ l ∧ x ∉ spt_set)
         then relaxed g u du x <$> dist !! x else dist !! x.
Proof.
  intros Hu. revert dist. induction l as [|v l IH]; intros dist Hdu Hdom.
  - exists dist. split; [done|]. intros x. rewrite decide_False; [done|].
    intros [Hx _]. by apply elem_of_nil in Hx.
  - destruct (Hdom v) as [dv Hdv]; [left|].
    cbn [for_each]. rewrite (relax_eq g u spt_set dist v du dv) by done.
    cbn [mbind option_bind]. destruct (decide (v ∈ spt_set)) as [Hv|Hv].
    + destruct (IH dist Hdu) as (dist' & -> & Hdist').
      { intros y Hy. apply Hdom. by right. }
      exists dist'. split; [done|]. intros x. rewrite Hdist'.
      destruct (decide (x = v)) as [->|Hne].
      * rewrite !decide_False; [done|naive_solver..].
      * apply decide_ext. rewrite elem_of_cons. naive_solver.
    + assert (u ≠ v) as Huv by (intros ->; done).
      destruct (IH (<[v := relaxed g u du v dv]> dist)) as (dist' & -> & Hdist').
      { by rewrite lookup_insert_ne. }
      { intros y Hy. destruct (decide (v = y)) as [->|Hne].
        - rewrite lookup_insert_eq. by eexists.
        - rewrite lookup_insert_ne by done. apply Hdom. by right. }
      exists dist'. split; [done|]. intros x. rewrite Hdist'.
      destruct (decide (x = v)) as [->|Hne].
      * rewrite lookup_insert_eq, Hdv. simpl.
        rewrite (decide_True (P := v ∈ v :: l ∧ v ∉ spt_set)) by (split; [left|done]).
        case_decide; simpl; [by rewrite relaxed_idemp|done].
      * rewrite lookup_insert_ne by done.
        apply decide_ext. rewrite elem_of_cons. naive_solver.
Qed.

(** * The main loop of [dijkstras] *)

Lemma wrap_int_id z : INT_MIN ≤ z ≤ INT_MAX → wrap_int z = z.
Proof.
  unfold wrap_int, INT_MIN, INT_MAX. intros Hz. rewrite Z.mod_small; lia.
Qed.

Lemma relaxed_le_max g u du v dv : dv ≤ INT_MAX → relaxed g u du v dv ≤ INT_MAX.
Proof. intros. pose proof (relaxed_le g u du v dv). lia. Qed.

Lemma unprocessed_exists g (spt_set : gset vertex) :
  NoDup (vertices g) → spt_set ⊆ vertex_set g →
  (size spt_set < num_vertices g)%nat →
  ∃ v, v ∈ vertices g ∧ v ∉ spt_set.
Proof.
  intros Hnd Hsub Hlt. rewrite <-size_vertex_set in Hlt by done.
  destruct (size_pos_elem_of (vertex_set g ∖ spt_set)) as [v Hv].
  { rewrite size_difference by done. lia. }
  exists v. rewrite <-elem_of_vertex_set. set_solver.
Qed.

(** One iteration of the main loop: the vertex picked is an unprocessed
    vertex of the graph, the last of minimum distance; it is marked, and the
    unprocessed vertices are relaxed. *)
Lemma dijkstras_step_spec g k dist spt_set x :
  NoDup (vertices g) → loop_inv g k (dist, spt_set) → (k < num_vertices g)%nat →
  ∃ u du dist',
    min_distance_scan g dist spt_set = Some (Some u, du) ∧
    last_minimum g dist spt_set u du ∧ u ∈ vertices g ∧
    dijkstras_step g (dist, spt_set) x = Some (dist', {[u]} ∪ spt_set) ∧
    (∀ y, dist' !! y =
          if decide (y ∈ vertices g ∧ y ∉ {[u]} ∪ spt_set)
          then relaxed g u du y <$> dist !! y else dist !! y) ∧
    loop_inv g (S k) (dist', {[u]} ∪ spt_set).
Proof.
  intros Hnd (Hdom & Hsub & Hsz) Hk. simpl in *.
  destruct (min_distance_scan_spec g dist spt_set) as (u & du & Hscan & Hmin).
  { intros v Hv _. by apply Hdom. }
  { apply unprocessed_exists; [done..|lia]. }
  assert (u ∈ vertices g ∧ (u ∉ spt_set) ∧ dist !! u = Some du) as (Hu & Hu' & Hdu).
  { destruct Hmin as (before & after & Hl & ? & ? & _). split_and!; [|done..].
    rewrite Hl. apply elem_of_app. right. left. }
  destruct (relax_loop_spec g u ({[u]} ∪ spt_set) du (vertices g) dist)
    as (dist' & Hloop & Hdist'); [set_solver|done| |].
  { intros v Hv. destruct (Hdom v Hv) as (d & -> & _). by eexists. }
  exists u, du, dist'. split_and!; [done..| |done|].
  - unfold dijkstras_step, min_distance. simpl. rewrite Hscan. simpl.
    rewrite Hloop. done.
  - split_and!; simpl.
    + intros v Hv. rewrite Hdist'. destruct (Hdom v Hv) as (d & -> & Hd).
      case_decide; simpl; eexists; (split; [done|]); [by apply relaxed_le_max|done].
    + apply elem_of_vertex_set in Hu. set_solver.
    + rewrite size_union by set_solver. rewrite size_singleton. lia.
Qed.

Lemma all_inf_lookup (l : list vertex) (m : gmap vertex Z) v :
  foldl (λ m x, map_insert_new x INT_MAX m) m l !! v =
  match m !! v with
  | Some d => Some d
  | None => if decide (v ∈ l) then Some INT_MAX else None
  end.
Proof.
  revert m. induction l as [|x l IH]; intros m; simpl.
  - by destruct (m !! v).
  - rewrite IH. unfold map_insert_new.
    destruct (m !! x) eqn:Hx.
    + destruct (m !! v) eqn:Hv; [done|].
      apply decide_ext. rewrite elem_of_cons. naive_solver.
    + destruct (decide (x = v)) as [->|Hne].
      * rewrite lookup_insert_eq, Hx. rewrite decide_True; [done|left].
      * rewrite lookup_insert_ne by done. destruct (m !! v); [done|].
        apply decide_ext. rewrite elem_of_cons. naive_solver.
Qed.

Lemma dijkstras_init_lookup g s v :
  v ∈ vertices g →
  dijkstras_init g s !! v = Some (if decide (v = s) then 0 else INT_MAX).
Proof.
  intros Hv. unfold dijkstras_init.
  replace (is_empty g) with false.
  2:{ symmetry. apply not_true_is_false. rewrite is_empty_true.
      intros Hnil. rewrite Hnil in Hv. by apply elem_of_nil in Hv. }
  case_decide as Hvs.
  - subst. by rewrite lookup_insert_eq.
  - rewrite lookup_insert_ne by done. rewrite all_inf_lookup, lookup_empty.
    by rewrite decide_True.
Qed.

Lemma loop_inv_init g s : loop_inv g 0 (dijkstras_init g s, ∅).
Proof.
  split_and!; simpl.
  - intros v Hv. rewrite dijkstras_init_lookup by done.
    eexists. split; [done|]. case_decide; unfold INT_MAX; lia.
  - set_solver.
  - reflexivity.
Qed.

(** The main loop never faults, whatever the weights and the source. *)
Lemma dijkstras_loop_inv g (l : list vertex) k st :
  NoDup (vertices g) → loop_inv g k st → (k + length l ≤ num_vertices g)%nat →
  ∃ st', for_each (dijkstras_step g) l st = Some st' ∧
         loop_inv g (k + length l) st'.
Proof.
  intros Hnd. revert k st. induction l as [|x l IH]; intros k [dist spt_set] Hinv Hk.
  - exists (dist, spt_set). split; [done|]. by rewrite Nat.add_0_r.
  - simpl in Hk.
    destruct (dijkstras_step_spec g k dist spt_set x Hnd Hinv)
      as (u & du & dist' & _ & _ & _ & Hstep & _ & Hinv'); [lia|].
    destruct (IH (S k) (dist', {[u]} ∪ spt_set) Hinv') as (st' & Hloop & Hst'); [lia|].
    exists st'. cbn [for_each]. rewrite Hstep. cbn [mbind option_bind].
    split; [done|]. simpl. by rewrite Nat.add_succ_r.
Qed.

(** C9: at every iteration of the main loop of [dijkstras], [spt_set] holds
    exactly as many vertices of the graph as iterations have run; and as
    long as an iteration remains, some vertex of the graph is outside
    [spt_set] with a distance at most [INT_MAX], so that [min_distance]
    assigns [min_vertex] and returns an unprocessed vertex of the graph. *)
Theorem min_distance_initialised g s (processed remaining : list vertex) :
  wf_graph g → vertices g = processed ++ remaining →
  ∃ dist spt_set,
    dijkstras_loop g s processed = Some (dist, spt_set) ∧
    spt_set ⊆ vertex_set g ∧ size spt_set = length processed ∧
    (remaining ≠ [] →
     (∃ v d, v ∈ vertices g ∧ (v ∉ spt_set) ∧ dist !! v = Some d ∧ d ≤ INT_MAX) ∧
     ∃ u d, min_distance_scan g dist spt_set = Some (Some u, d) ∧
            min_distance g dist spt_set = Some u ∧
            u ∈ vertices g ∧ u ∉ spt_set).
Proof.
  intros Hwf Hl. pose proof (wf_nodup g Hwf) as Hnd.
  assert (length processed + length remaining = num_vertices g)%nat as Hlen.
  { unfold num_vertices. by rewrite Hl, length_app. }
  destruct (dijkstras_loop_inv g processed 0 (dijkstras_init g s, ∅) Hnd)
    as ([dist spt_set] & Hloop & Hinv); [apply loop_inv_init|simpl; lia|].
  exists dist, spt_set. destruct (Hinv) as (Hdom & Hsub & Hsz). simpl in *.
  split_and!; [done..|]. intros Hrem.
  assert (length remaining ≠ 0)%nat by (by destruct remaining).
  destruct (dijkstras_step_spec g _ dist spt_set inhabitant Hnd Hinv)
    as (u & du & dist' & Hscan & Hmin & Hu & _); [simpl; lia|].
  destruct Hmin as (before & after & _ & Hu' & Hdu & _).
  split.
  - destruct (Hdom u Hu) as (d & Hd & Hle). by exists u, d.
  - exists u, du. split_and!; [done| |done..].
    unfold min_distance. by rewrite Hscan.
Qed.

(** * Shortest paths *)

Lemma path_in_graph g s t d : wf_graph g → path g s t d → t ∈ vertices g.
Proof.
  intros Hwf. induction 1 as [|v x d w _ _ Hw]; [done|].
  by destruct (wf_edges g Hwf _ _ _ Hw).
Qed.

Lemma path_nonneg g s t d : nonneg_weights g → path g s t d → 0 ≤ d.
Proof.
  intros Hnn. induction 1 as [|v x d w _ IH Hw]; [done|].
  pose proof (map_Forall_lookup_1 _ _ _ _ Hnn Hw) as Hw'. simpl in Hw'. lia.
Qed.

Lemma path_reachable g s t d : path g s t d → reachable g s t.
Proof.
  induction 1 as [|v x d w _ IH Hw]; [done|].
  eapply rtc_r; [exact IH|]. by exists w.
Qed.

Lemma reachable_path g s t :
  s ∈ vertices g → reachable g s t → ∃ d, path g s t d.
Proof.
  intros Hs. revert t. apply rtc_ind_r.
  - exists 0. by constructor.
  - intros y z _ [w Hw] [d Hd]. exists (d + w). by econstructor.
Qed.


Lemma relaxed_cases g u du v dv :
  relaxed g u du v dv = dv ∨
  ∃ w, weights g !! (u, v) = Some w ∧ du ≠ INT_MAX ∧
       relaxed g u du v dv = int_add du w ∧ int_add du w < dv.
Proof.
  unfold relaxed. destruct (weights g !! (u, v)) as [w|]; [|by left].
  destruct (Z.eqb_spec du INT_MAX); [by left|].
  destruct (Z.ltb_spec (int_add du w) dv); [|by left].
  right. by exists w.
Qed.

Lemma relaxed_edge g u du v dv w :
  weights g !! (u, v) = Some w → du ≠ INT_MAX →
  relaxed g u du v dv ≤ int_add du w.
Proof.
  intros Hw Hdu. unfold relaxed. rewrite Hw.
  destruct (Z.eqb_spec du INT_MAX); [done|].
  destruct (Z.ltb_spec (int_add du w) dv); lia.
Qed.

Lemma hop_path_path g s t n d : hop_path g s t n d → path g s t d.
Proof.
  induction 1 as [|v x n d w _ IH Hw]; [by constructor|by econstructor].
Qed.

(** The bound on the single weights is one way to have
    [short_paths_bounded]. *)
Lemma bounded_weights_short_paths g s :
  bounded_weights g → nonneg_weights g ∧ short_paths_bounded g s.
Proof.
  intros Hb. split.
  - intros e w Hw. by destruct (Hb e w Hw).
  - assert (∀ t n d, hop_path g s t n d →
              Z.of_nat (num_vertices g) * d ≤ Z.of_nat n * (INT_MAX - 1)) as Hsum.
    { induction 1 as [|v x n d w _ IH Hw]; [lia|].
      destruct (map_Forall_lookup_1 _ _ _ _ Hb Hw) as [_ Hw']. simpl in Hw'. lia. }
    intros t n d Hp Hn. specialize (Hsum t n d Hp). unfold INT_MAX in *. nia.
Qed.

Lemma simple_path_path g s t p d : simple_path g s t p d → path g s t d.
Proof.
  induction 1 as [|v x p d w _ IH Hw _ _]; [by constructor|by econstructor].
Qed.

(** A path without a repeated vertex has fewer edges than the graph has
    vertices. *)
Lemma simple_path_hop_path g s t p d :
  wf_graph g → simple_path g s t p d →
  hop_path g s t (length p) d ∧ NoDup (t :: p) ∧
  ∀ y, y ∈ t :: p → y ∈ vertices g.
Proof.
  intros Hwf. induction 1 as [|v x p d w _ (IH1 & IH2 & IH3) Hw Hxv Hxp].
  - split_and!; [by constructor|apply NoDup_singleton|].
    by intros y ->%list_elem_of_singleton.
  - split_and!.
    + cbn [length]. by econstructor.
    + apply list.NoDup_cons. split; [|done].
      intros [->|?]%elem_of_cons; done.
    + intros y [->|Hy]%elem_of_cons; [|by apply IH3].
      by destruct (wf_edges g Hwf _ _ _ Hw).
Qed.

(** The bound on the paths of few edges is one way to have
    [simple_paths_bounded]. *)
Lemma short_paths_simple_paths g s :
  wf_graph g → short_paths_bounded g s → simple_paths_bounded g s.
Proof.
  intros Hwf Hshort t p d Hp.
  destruct (simple_path_hop_path g s t p d Hwf Hp) as (Hhop & Hnd & Hin).
  apply (Hshort t (length p) d Hhop).
  assert (length (t :: p) ≤ num_vertices g)%nat; [|simpl in *; lia].
  rewrite <-(size_list_to_set (C := gset vertex)) by done.
  rewrite <-size_vertex_set by apply Hwf.
  apply subseteq_size. intros y Hy%elem_of_list_to_set.
  by apply elem_of_vertex_set, Hin.
Qed.

Section dijkstra_correct.
Variables (g : @weighted_graph vertex _ _) (s : vertex).
Hypothesis Hwf : wf_graph g.
Hypothesis Hs : s ∈ vertices g.
Hypothesis Hnonneg : nonneg_weights g.
Hypothesis Hsimple : simple_paths_bounded g s.

Lemma edge_weight_nonneg u v w : weights g !! (u, v) = Some w → 0 ≤ w.
Proof. intros Hw. apply (map_Forall_lookup_1 _ _ _ _ Hnonneg Hw). Qed.

Lemma dijkstra_inv_init : dijkstra_inv g s (dijkstras_init g s, ∅).
Proof.
  split; cbn [fst snd].
  - intros v Hv. rewrite dijkstras_init_lookup by done.
    eexists. split; [done|]. case_decide; unfold INT_MAX; lia.
  - intros v d Hv. rewrite dijkstras_init_lookup by done.
    case_decide; intros ? ?; simplify_eq.
    exists []. split; [by constructor|]. intros y Hy. by apply elem_of_nil in Hy.
  - intros u du d' Hu. set_solver.
  - intros u v du dv w Hu. set_solver.
  - rewrite dijkstras_init_lookup by done. by rewrite decide_True.
Qed.

(** One iteration keeps [dijkstra_inv]: the vertex picked has its final
    distance, and no sum computed by the relaxation overflows, each being
    the weight of a path without a repeated vertex. *)
Lemma dijkstra_inv_step k dist spt_set x st' :
  loop_inv g k (dist, spt_set) → (k < num_vertices g)%nat →
  dijkstra_inv g s (dist, spt_set) →
  dijkstras_step g (dist, spt_set) x = Some st' →
  dijkstra_inv g s st'.
Proof.
  intros Hli Hk [Hrange Hsound Hfinal Hfront Hsrc] Hstep. cbn [fst snd] in *.
  destruct (dijkstras_step_spec g k dist spt_set x (wf_nodup g Hwf) Hli Hk)
    as (u & du & dist' & _ & Hmin & Hu & Hstep' & Hdist' & Hli').
  rewrite Hstep' in Hstep. injection Hstep as <-.
  assert ((u ∉ spt_set) ∧ dist !! u = Some du) as [Hu' Hdu].
  { by destruct Hmin as (before & after & _ & ? & ? & _). }
  assert (∀ v dv, v ∈ vertices g → v ∉ spt_set → dist !! v = Some dv → du ≤ dv)
    as Hminimal.
  { destruct Hmin as (before & after & Hl & _ & _ & Hb & Ha).
    intros v dv Hv Hv' Hdv. rewrite Hl in Hv.
    apply elem_of_app in Hv as [Hv|[->|Hv]%elem_of_cons].
    - by eapply Hb.
    - simplify_eq. lia.
    - specialize (Ha v dv Hv Hv' Hdv). lia. }
  assert (0 ≤ du ≤ INT_MAX) as Hdu_range.
  { destruct (Hrange u Hu) as (d & Hd & ?). by simplify_eq. }
  assert (∀ v w, weights g !! (u, v) = Some w → du ≠ INT_MAX →
            v ∉ {[u]} ∪ spt_set →
            int_add du w = du + w ∧ 0 ≤ w ∧ du + w < INT_MAX ∧
            ∃ p, simple_path g s v p (du + w) ∧ ∀ y, y ∈ p → y ∈ {[u]} ∪ spt_set)
    as Hnowrap.
  { intros v w Hw Hne Hv.
    destruct (Hsound u du Hu Hdu) as (p & Hp & Hin); [lia|].
    pose proof (edge_weight_nonneg _ _ _ Hw) as Hw0.
    assert (simple_path g s v (u :: p) (du + w)) as Hp'.
    { econstructor; [done..|set_solver|]. intros Hvp%Hin. set_solver. }
    pose proof (Hsimple v _ _ Hp') as Hlt.
    split_and!; [|done|done|exists (u :: p); split; [done|]].
    - unfold int_add. apply wrap_int_id. unfold INT_MIN. lia.
    - intros y [->|Hy%Hin]%elem_of_cons; set_solver. }
  assert (∀ y d', path g s y d' → y ∉ spt_set → du ≤ d' ∧ du < INT_MAX) as Hcut.
  { induction 1 as [|v y d w Hp IH Hw]; intros Hy.
    - specialize (Hminimal s 0 Hs Hy Hsrc). unfold INT_MAX. lia.
    - pose proof (edge_weight_nonneg _ _ _ Hw) as Hw0.
      destruct (decide (v ∈ spt_set)) as [Hv|Hv]; [|destruct (IH Hv); lia].
      assert (v ∈ vertices g) as Hvg by (by eapply path_in_graph).
      assert (y ∈ vertices g) as Hyg by (by destruct (wf_edges g Hwf _ _ _ Hw)).
      destruct (Hrange v Hvg) as (dv & Hdv & _).
      destruct (Hrange y Hyg) as (dy & Hdy & _).
      destruct (Hfinal v dv d Hv Hdv Hp) as [Hle Hlt].
      pose proof (Hfront v y dv dy w Hv Hyg Hy Hdv Hlt Hw Hdy).
      pose proof (Hminimal y dy Hyg Hy Hdy).
      destruct (Hsound v dv Hvg Hdv Hlt) as (p & Hpv & Hin).
      assert (dv + w < INT_MAX); [|lia].
      apply (Hsimple y (v :: p)). econstructor; [done..| |].
      + by intros ->.
      + by intros Hyp%Hin. }
  assert (∀ y, y ∈ {[u]} ∪ spt_set → dist' !! y = dist !! y) as Hsame.
  { intros y Hy. rewrite Hdist'. rewrite decide_False; [done|naive_solver]. }
  assert (∀ y dy, y ∈ vertices g → y ∉ {[u]} ∪ spt_set → dist !! y = Some dy →
            dist' !! y = Some (relaxed g u du y dy)) as Hrelaxed.
  { intros y dy Hy Hy' Hdy. rewrite Hdist', decide_True, Hdy; done. }
  split; cbn [fst snd].
  - intros v Hv. destruct (Hrange v Hv) as (dv & Hdv & Hdv').
    destruct (decide (v ∈ {[u]} ∪ spt_set)) as [Hin|Hout].
    + exists dv. by rewrite Hsame.
    + exists (relaxed g u du v dv). split; [by apply Hrelaxed|].
      destruct (relaxed_cases g u du v dv) as [->|(w & Hw & Hne & -> & _)]; [done|].
      destruct (Hnowrap v w Hw Hne Hout) as (-> & ? & ? & _). lia.
  - intros v d Hv Hd Hlt.
    destruct (Hrange v Hv) as (dv & Hdv & Hdv').
    destruct (decide (v ∈ {[u]} ∪ spt_set)) as [Hin|Hout].
    + rewrite Hsame, Hdv in Hd by done. simplify_eq.
      destruct (Hsound v d Hv Hdv Hlt) as (p & Hp & Hp').
      exists p. split; [done|]. intros y Hy%Hp'. set_solver.
    + rewrite (Hrelaxed v dv) in Hd by done. simplify_eq.
      destruct (relaxed_cases g u du v dv) as [Heq|(w & Hw & Hne & Heq & _)];
        rewrite Heq in *.
      * destruct (Hsound v dv Hv Hdv Hlt) as (p & Hp & Hp').
        exists p. split; [done|]. intros y Hy%Hp'. set_solver.
      * destruct (Hnowrap v w Hw Hne Hout) as (-> & _ & _ & p & Hp & Hp').
        by exists p.
  - intros u0 du0 d' Hu0 Hdu0 Hp. rewrite Hsame in Hdu0 by done.
    destruct (decide (u0 ∈ spt_set)) as [Hold|Hnew]; [by eapply Hfinal|].
    assert (u0 = u) as -> by set_solver. simplify_eq. by apply (Hcut u d').
  - intros u0 v du0 dv' w Hu0 Hv Hv' Hdu0 Hlt Hw Hdv'.
    rewrite Hsame in Hdu0 by done.
    destruct (Hrange v Hv) as (dv & Hdv & _).
    rewrite (Hrelaxed v dv) in Hdv' by done. simplify_eq.
    pose proof (relaxed_le g u du v dv) as Hle.
    destruct (decide (u0 ∈ spt_set)) as [Hold|Hnew].
    + assert (dv ≤ du0 + w); [|lia].
      eapply (Hfront u0 v); [done..| |done|done|done|done]. set_solver.
    + assert (u0 = u) as -> by set_solver. simplify_eq.
      pose proof (relaxed_edge g u du v dv w Hw) as Hedge.
      destruct (Hnowrap v w Hw) as (Hadd & _); [lia|done|].
      rewrite Hadd in Hedge. lia.
  - destruct (decide (s ∈ {[u]} ∪ spt_set)) as [Hin|Hout]; [by rewrite Hsame|].
    rewrite (Hrelaxed s 0) by done. f_equal.
    destruct (relaxed_cases g u du s 0) as [->|(w & Hw & Hne & -> & Hneg)]; [done|].
    destruct (Hnowrap s w Hw Hne Hout) as (Hadd & ? & _). rewrite Hadd in *. lia.
Qed.

(** The whole loop, started in a state that satisfies both invariants. *)
Lemma dijkstras_loop_correct (l : list vertex) k st :
  loop_inv g k st → dijkstra_inv g s st → (k + length l ≤ num_vertices g)%nat →
  ∃ st', for_each (dijkstras_step g) l st = Some st' ∧
         loop_inv g (k + length l) st' ∧ dijkstra_inv g s st'.
Proof.
  revert k st. induction l as [|x l IH]; intros k [dist spt_set] Hli Hinv Hk.
  - exists (dist, spt_set). rewrite Nat.add_0_r. by split_and!.
  - simpl in Hk.
    destruct (dijkstras_step_spec g k dist spt_set x (wf_nodup g Hwf) Hli)
      as (u & du & dist' & _ & _ & _ & Hstep & _ & Hli'); [lia|].
    assert (dijkstra_inv g s (dist', {[u]} ∪ spt_set)) as Hinv'.
    { apply (dijkstra_inv_step k dist spt_set x); [done|lia|done|done]. }
    destruct (IH (S k) _ Hli' Hinv') as (st' & Hloop & Hst' & Hinv''); [lia|].
    exists st'. cbn [for_each length]. rewrite Hstep. cbn [mbind option_bind].
    rewrite Nat.add_succ_r. by split_and!.
Qed.

End dijkstra_correct.


(** * Graphs from vertex and edge lists *)

Lemma empty_graph_wf : wf_graph (@empty_graph vertex _ _).
Proof. split; simpl; [constructor|intros u v w; by rewrite lookup_empty|done]. Qed.

Lemma add_vertex_wf v g : wf_graph g → wf_graph (add_vertex v g).
Proof.
  intros [Hnd Hed Hsym]. split.
  - by apply add_vertex_nodup.
  - intros a b w. rewrite add_vertex_weights, <-!elem_of_vertex_set.
    rewrite add_vertex_vertex_set, !elem_of_union, !elem_of_vertex_set.
    intros Hw. destruct (Hed a b w Hw). auto.
  - intros a b. by rewrite add_vertex_weights.
Qed.

Lemma add_edge_wf u v w g : wf_graph g → wf_graph (add_edge u v w g).
Proof.
  intros Hwf. unfold add_edge. case_decide as Huv; [|done].
  destruct Hwf as [Hnd Hed Hsym]. destruct Huv as [Hu Hv]. split; simpl.
  - done.
  - intros a b x. rewrite !lookup_insert.
    repeat case_decide; simplify_eq; try done. apply Hed.
  - intros a b. rewrite !lookup_insert.
    repeat case_decide; simplify_eq; done.
Qed.

Lemma graph_of_wf (vs : list vertex) es : wf_graph (graph_of vs es).
Proof.
  unfold graph_of, add_edges.
  assert (wf_graph (foldl (λ c v, add_vertex v c) empty_graph vs)) as Hv.
  { generalize empty_graph_wf. generalize (@empty_graph vertex _ _).
    induction vs as [|v vs IH]; intros c Hc; [done|].
    simpl. by apply IH, add_vertex_wf. }
  revert Hv. generalize (foldl (λ c v, add_vertex v c) empty_graph vs).
  induction es as [|e es IH]; intros c Hc; [done|].
  simpl. by apply IH, add_edge_wf.
Qed.

Lemma remove_vertex_wf v g : wf_graph g → wf_graph (remove_vertex v g).
Proof.
  intros [Hnd Hed Hsym]. split; simpl.
  - by apply list.NoDup_filter.
  - intros a b w [Hw [Ha Hb]]%map_lookup_filter_Some. simpl in *.
    destruct (Hed a b w Hw). rewrite !list_elem_of_filter. done.
  - intros a b. apply option_eq. intros w.
    rewrite !map_lookup_filter_Some. simpl. rewrite (Hsym a b). naive_solver.
Qed.

(** * Tie-breaking of [min_distance] *)

(** C5, amended: in every iteration of the main loop of [dijkstras], the
    vertex selected is unprocessed and of minimum current distance and, on
    ties, it is the last such vertex in the enumeration order of the
    graph. *)
Theorem min_distance_picks_last g s (processed : list vertex) x
    (remaining : list vertex) :
  wf_graph g → vertices g = processed ++ x :: remaining →
  ∃ dist spt_set u d,
    dijkstras_loop g s processed = Some (dist, spt_set) ∧
    min_distance g dist spt_set = Some u ∧
    last_minimum g dist spt_set u d.
Proof.
  intros Hwf Hl. pose proof (wf_nodup g Hwf) as Hnd.
  assert (length processed < num_vertices g)%nat as Hlen.
  { unfold num_vertices. rewrite Hl, length_app. simpl. lia. }
  destruct (dijkstras_loop_inv g processed 0 (dijkstras_init g s, ∅) Hnd)
    as ([dist spt_set] & Hloop & Hinv); [apply loop_inv_init|simpl; lia|].
  destruct (dijkstras_step_spec g _ dist spt_set x Hnd Hinv)
    as (u & du & dist' & Hscan & Hmin & _); [simpl; lia|].
  exists dist, spt_set, u, du. split_and!; [done| |done].
  unfold min_distance. by rewrite Hscan.
Qed.

(** * The zero-vertex graph *)

(** C4: on a graph without vertices the five entry points return [true],
    [true], no component, the empty map and no articulation point, and
    [dijkstras] does so without a fault. *)
Theorem zero_vertex_graph g s :
  num_vertices g = 0%nat →
  is_empty g = true ∧ is_connected g = true ∧ connected_components g = [] ∧
  dijkstras g s = Some ∅ ∧ articulation_points g = [].
Proof.
  intros Hn. assert (vertices g = []) as Hnil.
  { unfold num_vertices in Hn. by destruct (vertices g). }
  assert (is_empty g = true) as Hemp by (by apply is_empty_true).
  split_and!.
  - done.
  - unfold is_connected. by rewrite Hemp.
  - unfold connected_components. by rewrite Hnil.
  - unfold dijkstras, dijkstras_loop, dijkstras_init. by rewrite Hemp, Hnil.
  - unfold articulation_points. by rewrite Hnil.
Qed.

(** * Articulation points *)

Lemma is_connected_false g :
  wf_graph g → is_connected g = false ↔ disconnected g.
Proof.
  intros Hwf. split.
  - intros Hfalse. unfold is_connected in Hfalse.
    apply orb_false_iff in Hfalse as [Hemp Hfalse].
    destruct (vertices g) as [|f l] eqn:Hvs.
    { apply is_empty_true in Hvs. congruence. }
    assert (f ∈ vertices g) as Hf by (rewrite Hvs; left).
    apply Nat.eqb_neq in Hfalse.
    destruct (size_pos_elem_of (vertex_set g ∖ depth_first g f)) as [y Hy].
    { rewrite size_difference by (by apply depth_first_subseteq).
      pose proof (subseteq_size _ _ (depth_first_subseteq g f Hwf Hf)).
      rewrite size_vertex_set in * by apply Hwf. lia. }
    apply elem_of_difference in Hy as [Hy%elem_of_vertex_set Hy'].
    exists f, y. split_and!; [done..|].
    intros Hr. by apply Hy', elem_of_depth_first.
  - intros (x & y & Hx & Hy & Hnot). apply not_true_is_false.
    rewrite is_connected_spec by done. intros Hall. by apply Hnot, Hall.
Qed.

(** The result lists, in enumeration order, the vertices whose removal
    leaves a graph that [is_connected] rejects. *)
Lemma articulation_points_filter g :
  articulation_points g =
  filter (λ v, is_connected (remove_vertex v g) = false) (vertices g).
Proof.
  unfold articulation_points.
  assert (∀ (l : list vertex) out,
    foldl (λ out v, if negb (is_connected (remove_vertex v g))
                    then out ++ [v] else out) out l
    = out ++ filter (λ v, is_connected (remove_vertex v g) = false) l) as Hfold.
  { induction l as [|v l IH]; intros out; simpl; [by rewrite app_nil_r|].
    rewrite IH, filter_cons.
    destruct (is_connected (remove_vertex v g)); simpl; [done|].
    by rewrite <-app_assoc. }
  by rewrite Hfold.
Qed.

Lemma filter_ne_id (l : list vertex) v :
  v ∉ l → filter (λ x, x ≠ v) l = l.
Proof.
  induction l as [|y l IH]; intros Hv; [done|].
  rewrite filter_cons, decide_True by set_solver. f_equal. apply IH. set_solver.
Qed.

Lemma remove_vertex_length v g :
  NoDup (vertices g) → v ∈ vertices g →
  S (num_vertices (remove_vertex v g)) = num_vertices g.
Proof.
  unfold num_vertices. simpl. induction (vertices g) as [|x l IH]; intros Hnd Hv.
  - by apply elem_of_nil in Hv.
  - apply list.NoDup_cons in Hnd as [Hx Hnd]. rewrite filter_cons.
    destruct (decide (x = v)) as [->|Hne].
    + rewrite decide_False by naive_solver. by rewrite filter_ne_id.
    + rewrite decide_True by done. simpl. f_equal. apply IH; [done|set_solver].
Qed.

(** A graph with at most one vertex is connected. *)
Lemma is_connected_small g :
  wf_graph g → (num_vertices g ≤ 1)%nat → is_connected g = true.
Proof.
  intros Hwf Hn. apply is_connected_spec; [done|].
  unfold num_vertices in Hn. destruct (vertices g) as [|f [|? ?]]; simpl in Hn; [| |lia].
  - intros x y Hx. by apply elem_of_nil in Hx.
  - intros x y ->%list_elem_of_singleton ->%list_elem_of_singleton. done.
Qed.

(** C6: a vertex is reported exactly when it is a vertex of the graph whose
    removal leaves a disconnected graph; a graph with one or two vertices
    has no articulation point, since what remains after a removal there has
    at most one vertex and counts as connected. *)
Theorem articulation_points_spec g :
  wf_graph g →
  (∀ v, v ∈ articulation_points g ↔
        v ∈ vertices g ∧ disconnected (remove_vertex v g)) ∧
  ((num_vertices g ≤ 2)%nat → articulation_points g = []).
Proof.
  intros Hwf. rewrite articulation_points_filter.
  assert (∀ v, v ∈ filter (λ v, is_connected (remove_vertex v g) = false) (vertices g)
             ↔ v ∈ vertices g ∧ disconnected (remove_vertex v g)) as Hmem.
  { intros v. rewrite list_elem_of_filter.
    rewrite is_connected_false by (by apply remove_vertex_wf). naive_solver. }
  split; [done|]. intros Hn.
  apply elem_of_nil_inv. intros v [Hv Hdis]%Hmem.
  apply is_connected_false in Hdis; [|by apply remove_vertex_wf].
  rewrite is_connected_small in Hdis; [done|by apply remove_vertex_wf|].
  pose proof (remove_vertex_length v g (wf_nodup g Hwf) Hv). lia.
Qed.

(** * Calls leave the store as they found it *)

Lemma articulation_body_spec (a t : nat) g (σ : gmap nat weighted_graph)
    out v scratch :
  a ≠ t → σ !! a = Some g →
  articulation_body a t out v (<[t := scratch]> σ)
  = Some (if negb (is_connected (remove_vertex v g)) then out ++ [v] else out,
          <[t := remove_vertex v g]> σ).
Proof.
  intros Hat Ha. unfold articulation_body, cmd_bind, read, write, cmd_ret.
  rewrite lookup_insert_ne, Ha by done.
  by rewrite !lookup_insert_eq, !insert_insert_eq.
Qed.

Lemma articulation_loop_spec (a t : nat) g (σ : gmap nat weighted_graph)
    (l : list vertex) out scratch :
  a ≠ t → σ !! a = Some g →
  ∃ scratch',
    cmd_for (articulation_body a t) l out (<[t := scratch]> σ)
    = Some (foldl (λ out v, if negb (is_connected (remove_vertex v g))
                            then out ++ [v] else out) out l,
            <[t := scratch']> σ).
Proof.
  intros Hat Ha. revert out scratch.
  induction l as [|v l IH]; intros out scratch; [by exists scratch|].
  destruct (IH (if negb (is_connected (remove_vertex v g)) then out ++ [v] else out)
               (remove_vertex v g)) as [scratch' Hl].
  exists scratch'. cbn [cmd_for foldl]. rewrite <-Hl.
  unfold cmd_bind at 1. by rewrite (articulation_body_spec a t g σ) by done.
Qed.

Lemma articulation_points_at_spec (a : nat) g (σ : gmap nat weighted_graph) :
  σ !! a = Some g →
  articulation_points_at a σ = Some (articulation_points g, σ).
Proof.
  intros Ha. unfold articulation_points_at, alloc, free, cmd_bind, cmd_ret.
  set (t := fresh (dom σ)).
  assert (σ !! t = None) as Ht
    by (apply not_elem_of_dom, is_fresh).
  assert (a ≠ t) as Hat by (intros ->; congruence).
  unfold read at 1. rewrite lookup_insert_ne, Ha by done.
  destruct (articulation_loop_spec a t g σ (vertices g) [] empty_graph Hat Ha)
    as [scratch' ->].
  by rewrite delete_insert_eq, delete_id.
Qed.

(** A call on a well-formed graph returns the value of the operation and
    leaves the store as it found it. *)
Lemma call_spec op (a : nat) g (σ : gmap nat weighted_graph) :
  wf_graph g → σ !! a = Some g →
  ∃ r, eval op g = Some r ∧ call op a σ = Some (r, σ).
Proof.
  intros Hwf Ha. destruct op as [| | |s|]; simpl;
    unfold cmd_bind, read, cmd_ret; rewrite ?Ha; try by eexists.
  - destruct (dijkstras_loop_inv g (vertices g) 0 (dijkstras_init g s, ∅))
      as ([dist spt_set] & Hloop & _);
      [apply Hwf|apply loop_inv_init|done|].
    unfold dijkstras, dijkstras_loop. rewrite Hloop. simpl. by eexists.
  - rewrite (articulation_points_at_spec a g σ Ha). by eexists.
Qed.

(** C7: a call of any of the five operations leaves the caller's graph,
    and every other object of the store, unchanged; the removals of
    [articulation_points] act on the copy it creates. *)
Theorem call_preserves_graph op (a : nat) g (σ : gmap nat weighted_graph) :
  wf_graph g → σ !! a = Some g →
  ∃ r σ', call op a σ = Some (r, σ') ∧ σ' !! a = Some g ∧ σ' = σ.
Proof.
  intros Hwf Ha. destruct (call_spec op a g σ Hwf Ha) as (r & _ & Hcall).
  by exists r, σ.
Qed.

(** * Repeated calls *)

(** Whatever [min_vertex] holds before its first assignment, the main loop
    of [dijkstras] runs as with a default-constructed one: the value is
    overwritten in every call of [min_distance] that the loop makes. *)
Lemma dijkstras_loop_with_eq g (junk : nat → vertex) (l : list vertex) i k st :
  NoDup (vertices g) → loop_inv g k st → (k + length l ≤ num_vertices g)%nat →
  dijkstras_loop_with junk g i l st = for_each (dijkstras_step g) l st.
Proof.
  intros Hnd. revert i k st.
  induction l as [|x l IH]; intros i k [dist spt_set] Hli Hk; [done|].
  cbn [length] in Hk.
  destruct (dijkstras_step_spec g k dist spt_set x Hnd Hli)
    as (u & du & dist' & Hscan & _ & _ & Hstep & _ & Hli'); [lia|].
  assert (dijkstras_step_with (junk i) g (dist, spt_set) x
          = dijkstras_step g (dist, spt_set) x) as Heq.
  { unfold dijkstras_step_with, dijkstras_step, min_distance_with, min_distance.
    cbn [fst snd]. by rewrite Hscan. }
  cbn [dijkstras_loop_with for_each]. rewrite Heq, Hstep. cbn [mbind option_bind].
  apply (IH (S i) (S k)); [done|lia].
Qed.

Lemma dijkstras_with_eq g s (junk : nat → vertex) :
  NoDup (vertices g) → dijkstras_with junk g s = dijkstras g s.
Proof.
  intros Hnd. unfold dijkstras_with, dijkstras, dijkstras_loop.
  by rewrite (dijkstras_loop_with_eq g junk (vertices g) 0 0);
    [|done|apply loop_inv_init|].
Qed.

(** [is_connected] only takes the size of what the traversal returns, so
    the order of the traversal does not reach its result. *)
Lemma is_connected_with_eq df g :
  traversal_ok df → wf_graph g → is_connected_with df g = is_connected g.
Proof.
  intros Hdf Hwf. unfold is_connected_with, is_connected.
  destruct (vertices g) as [|f l] eqn:Hvs; [done|].
  assert (f ∈ vertices g) as Hf by (rewrite Hvs; left).
  destruct (Hdf g f Hwf Hf) as [Hnd Hreach].
  replace (length (df g f)) with (size (depth_first g f)); [done|].
  rewrite <-(size_list_to_set (C := gset vertex) (df g f)) by done.
  f_equal. apply set_eq. intros v.
  by rewrite elem_of_list_to_set, Hreach, elem_of_depth_first.
Qed.

Lemma articulation_points_with_eq df g :
  traversal_ok df → wf_graph g →
  articulation_points_with df g = articulation_points g.
Proof.
  intros Hdf Hwf. unfold articulation_points_with, articulation_points.
  assert (∀ (l out : list vertex),
    foldl (λ out v, if negb (is_connected_with df (remove_vertex v g))
                    then out ++ [v] else out) out l
    = foldl (λ out v, if negb (is_connected (remove_vertex v g))
                      then out ++ [v] else out) out l) as Hfold; [|apply Hfold].
  induction l as [|v l IH]; intros out; [done|].
  cbn [foldl]. rewrite (is_connected_with_eq df (remove_vertex v g)); [apply IH|done|].
  by apply remove_vertex_wf.
Qed.

(** The traversal that enumerates the reached set, and the one that
    enumerates it backwards. *)
Lemma traversal_elements_ok :
  traversal_ok (λ g u, elements (depth_first g u)).
Proof.
  intros g u Hwf Hu. split; [apply NoDup_elements|].
  intros v. by rewrite elem_of_elements, elem_of_depth_first.
Qed.

Lemma traversal_reverse_ok :
  traversal_ok (λ g u, reverse (elements (depth_first g u))).
Proof.
  intros g u Hwf Hu. split; [rewrite reverse_Permutation; apply NoDup_elements|].
  intros v. by rewrite elem_of_reverse, elem_of_elements, elem_of_depth_first.
Qed.

(** C8: two calls of [dijkstras] on the same graph and source return the
    same map, whatever indeterminate value the uninitialised [min_vertex]
    holds in each call of [min_distance]; two calls of
    [articulation_points] return the same list, in the same order, in
    whatever order the traversal explores the graph in each of them. *)
Theorem repeated_calls_agree g s (junk1 junk2 : nat → vertex) df1 df2 :
  wf_graph g → traversal_ok df1 → traversal_ok df2 →
  (∃ m, dijkstras_with junk1 g s = Some m ∧ dijkstras_with junk2 g s = Some m) ∧
  articulation_points_with df1 g = articulation_points_with df2 g.
Proof.
  intros Hwf Hdf1 Hdf2. pose proof (wf_nodup g Hwf) as Hnd. split.
  - destruct (dijkstras_loop_inv g (vertices g) 0 (dijkstras_init g s, ∅) Hnd)
      as ([dist spt_set] & Hloop & _); [apply loop_inv_init|done|].
    exists dist. rewrite !dijkstras_with_eq by done.
    unfold dijkstras, dijkstras_loop. by rewrite Hloop.
  - by rewrite !articulation_points_with_eq.
Qed.

(** * Further properties of the main loop of [dijkstras] *)

Lemma for_each_app {A S : Type} (body : S → A → option S) (l1 l2 : list A) st :
  for_each body (l1 ++ l2) st = for_each body l1 st ≫= for_each body l2.
Proof.
  revert st. induction l1 as [|x l1 IH]; intros st; [done|].
  cbn [for_each app]. destruct (body st x) as [st'|]; [apply IH|done].
Qed.

(** A property of the loop state that every iteration keeps holds after any
    number of iterations; an iteration is described by the vertex it picks
    and the relaxed distances. *)
Lemma dijkstras_loop_invariant g (P : gmap vertex Z * gset vertex → Prop)
    (l : list vertex) k st :
  NoDup (vertices g) →
  (∀ k dist spt_set u du dist',
     loop_inv g k (dist, spt_set) → (k < num_vertices g)%nat →
     P (dist, spt_set) → last_minimum g dist spt_set u du → u ∈ vertices g →
     (∀ y, dist' !! y =
           if decide (y ∈ vertices g ∧ y ∉ {[u]} ∪ spt_set)
           then relaxed g u du y <$> dist !! y else dist !! y) →
     P (dist', {[u]} ∪ spt_set)) →
  loop_inv g k st → (k + length l ≤ num_vertices g)%nat → P st →
  ∃ st', for_each (dijkstras_step g) l st = Some st' ∧
         loop_inv g (k + length l) st' ∧ P st'.
Proof.
  intros Hnd Hkeep. revert k st.
  induction l as [|x l IH]; intros k [dist spt_set] Hli Hk HP.
  - exists (dist, spt_set). rewrite Nat.add_0_r. by split_and!.
  - cbn [length] in Hk.
    destruct (dijkstras_step_spec g k dist spt_set x Hnd Hli)
      as (u & du & dist' & _ & Hmin & Hu & Hstep & Hdist' & Hli'); [lia|].
    destruct (IH (S k) (dist', {[u]} ∪ spt_set) Hli') as (st' & Hloop & Hst' & HP');
      [lia|apply (Hkeep k dist spt_set u du dist'); [done|lia|done..]|].
    exists st'. cbn [for_each length]. rewrite Hstep. cbn [mbind option_bind].
    rewrite Nat.add_succ_r. by split_and!.
Qed.

Lemma dijkstras_init_dom g s :
  dom (dijkstras_init g s) =
  if is_empty g then ∅ else {[s]} ∪ vertex_set g.
Proof.
  unfold dijkstras_init.
  assert (dom (foldl (λ m x, map_insert_new x INT_MAX m) ∅ (vertices g))
          = vertex_set g) as Hdom.
  { apply set_eq. intros v. rewrite elem_of_dom, all_inf_lookup, lookup_empty.
    rewrite elem_of_vertex_set. case_decide; [|by split; [intros [? ?]|]].
    split; [done|by eexists]. }
  destruct (is_empty g) eqn:Hemp.
  - rewrite Hdom. apply is_empty_true in Hemp. unfold vertex_set. by rewrite Hemp.
  - by rewrite dom_insert_L, Hdom.
Qed.

(** X1: [dijkstras] never faults, whatever the weights and whether or not
    the source is a vertex of the graph, and the keys of the map it returns
    are the vertices of the graph, together with the source when the graph is
    not empty. *)
Theorem dijkstras_keys g s :
  NoDup (vertices g) →
  ∃ m, dijkstras g s = Some m ∧
       dom m = if is_empty g then ∅ else {[s]} ∪ vertex_set g.
Proof.
  intros Hnd.
  destruct (dijkstras_loop_invariant g
              (λ st, dom st.1 = dom (dijkstras_init g s))
              (vertices g) 0 (dijkstras_init g s, ∅) Hnd)
    as ([dist spt_set] & Hloop & _ & Hdom); [|apply loop_inv_init|done|done|].
  - intros k dist spt_set u du dist' _ _ Hdom _ _ Hdist'. cbn [fst] in *.
    rewrite <-Hdom. apply set_eq. intros y. rewrite !elem_of_dom, Hdist'.
    case_decide; [|done]. by rewrite fmap_is_Some.
  - exists dist. split; [unfold dijkstras, dijkstras_loop; by rewrite Hloop|].
    cbn [fst] in Hdom. by rewrite Hdom, dijkstras_init_dom.
Qed.

(** X2: the distance of the source is 0 in the result, whatever the
    weights, negative ones included: the source is the first vertex
    processed and the distance of a processed vertex is never written. *)
Theorem dijkstras_source_zero g s :
  NoDup (vertices g) → s ∈ vertices g →
  ∃ m, dijkstras g s = Some m ∧ m !! s = Some 0.
Proof.
  intros Hnd Hs.
  destruct (dijkstras_loop_invariant g
              (λ st, st.1 !! s = Some 0 ∧
                     (s ∈ st.2 ∨
                      ∀ v, v ∈ vertices g → v ≠ s → st.1 !! v = Some INT_MAX))
              (vertices g) 0 (dijkstras_init g s, ∅) Hnd)
    as ([dist spt_set] & Hloop & _ & Hzero & _); [|apply loop_inv_init|done| |].
  - intros k dist spt_set u du dist' _ _ [Hzero Hcase] Hmin Hu Hdist'.
    cbn [fst snd] in *.
    assert (s ∈ {[u]} ∪ spt_set) as Hin.
    { destruct Hcase as [Hin|Hinf]; [set_solver|].
      destruct (decide (u = s)) as [->|Hne]; [set_solver|].
      destruct (decide (s ∈ spt_set)) as [?|Hout]; [set_solver|].
      destruct Hmin as (before & after & Hl & Hu' & Hdu & Hb & Ha).
      rewrite (Hinf u Hu Hne) in Hdu. simplify_eq.
      rewrite Hl in Hs. apply elem_of_app in Hs as [Hs|[->|Hs]%elem_of_cons].
      - specialize (Hb s 0 Hs Hout Hzero). unfold INT_MAX in Hb. lia.
      - done.
      - specialize (Ha s 0 Hs Hout Hzero). unfold INT_MAX in Ha. lia. }
    split; [|by left]. rewrite Hdist', decide_False; [done|naive_solver].
  - cbn [fst snd]. rewrite dijkstras_init_lookup by done.
    split; [by rewrite decide_True|]. right. intros v Hv Hne.
    rewrite dijkstras_init_lookup by done. by rewrite decide_False.
  - exists dist. split; [unfold dijkstras, dijkstras_loop; by rewrite Hloop|done].
Qed.

(** X3: a vertex that no path joins to the source is left at the sentinel,
    whatever the weights: only a vertex adjacent to one with a distance
    other than [INT_MAX] is ever written. *)
Theorem dijkstras_unreachable_sentinel g s t :
  NoDup (vertices g) → t ∈ vertices g → ¬ reachable g s t →
  ∃ m, dijkstras g s = Some m ∧ m !! t = Some INT_MAX.
Proof.
  intros Hnd Ht Hnot.
  destruct (dijkstras_loop_invariant g
              (λ st, ∀ v d, v ∈ vertices g → st.1 !! v = Some d →
                            d ≠ INT_MAX → reachable g s v)
              (vertices g) 0 (dijkstras_init g s, ∅) Hnd)
    as ([dist spt_set] & Hloop & (Hdom & _) & Hreach);
    [|apply loop_inv_init|done| |].
  - intros k dist spt_set u du dist' _ _ HP Hmin Hu Hdist'. cbn [fst snd] in *.
    intros v d Hv Hd Hne. rewrite Hdist' in Hd.
    case_decide as Hcase; [|by eapply HP].
    destruct (dist !! v) as [dv|] eqn:Hdv; simplify_eq/=.
    destruct (relaxed_cases g u du v dv) as [Heq|(w & Hw & Hdu & _)].
    + rewrite Heq in Hne. by eapply HP.
    + eapply rtc_r; [|by exists w]. eapply (HP u du); [done| |done].
      by destruct Hmin as (? & ? & _ & _ & ? & _).
  - cbn [fst]. intros v d Hv. rewrite dijkstras_init_lookup by done.
    case_decide; intros ? ?; simplify_eq. done.
  - exists dist. split; [unfold dijkstras, dijkstras_loop; by rewrite Hloop|].
    cbn [fst snd] in *. destruct (Hdom t Ht) as (d & Hd & _).
    destruct (decide (d = INT_MAX)) as [->|Hne]; [done|].
    exfalso. by eapply Hnot, Hreach.
Qed.

(** X4: when the source is not a vertex of the (non-empty) graph,
    [dijkstras] does not fault: it returns every vertex of the graph at the
    sentinel, and the entry 0 that [operator[]] created for the source. *)
Theorem dijkstras_absent_source g s :
  NoDup (vertices g) → vertices g ≠ [] → s ∉ vertices g →
  ∃ m, dijkstras g s = Some m ∧ m !! s = Some 0 ∧
       ∀ t, t ∈ vertices g → m !! t = Some INT_MAX.
Proof.
  intros Hnd Hne Hs.
  assert (dijkstras_init g s !! s = Some 0) as Hinit.
  { unfold dijkstras_init. replace (is_empty g) with false.
    - by rewrite lookup_insert_eq.
    - symmetry. apply not_true_is_false. by rewrite is_empty_true. }
  destruct (dijkstras_loop_invariant g
              (λ st, st.1 !! s = Some 0 ∧
                     ∀ v, v ∈ vertices g → st.1 !! v = Some INT_MAX)
              (vertices g) 0 (dijkstras_init g s, ∅) Hnd)
    as ([dist spt_set] & Hloop & _ & Hzero & Hinf); [|apply loop_inv_init|done| |].
  - intros k dist spt_set u du dist' _ _ [Hzero Hinf] Hmin Hu Hdist'.
    cbn [fst snd] in *.
    assert (du = INT_MAX) as ->.
    { destruct Hmin as (? & ? & _ & _ & Hdu & _). rewrite (Hinf u Hu) in Hdu.
      by simplify_eq. }
    split.
    + rewrite Hdist', decide_False; [done|naive_solver].
    + intros v Hv. rewrite Hdist', (Hinf v Hv). case_decide; [|done].
      simpl. f_equal. unfold relaxed. destruct (weights g !! (u, v)); [|done].
      by rewrite Z.eqb_refl.
  - cbn [fst]. split; [done|]. intros v Hv.
    rewrite dijkstras_init_lookup by done. rewrite decide_False; [done|].
    by intros ->.
  - exists dist. split; [unfold dijkstras, dijkstras_loop; by rewrite Hloop|done].
Qed.

(** X5: during the main loop no distance ever increases, [spt_set] only
    grows, and the distance of a vertex is never written again once the
    vertex is in [spt_set]. *)
Theorem dijkstras_loop_monotone g s (l1 l2 l3 : list vertex) dist1 spt1 :
  NoDup (vertices g) → vertices g = l1 ++ l2 ++ l3 →
  dijkstras_loop g s l1 = Some (dist1, spt1) →
  ∃ dist2 spt2,
    dijkstras_loop g s (l1 ++ l2) = Some (dist2, spt2) ∧ spt1 ⊆ spt2 ∧
    ∀ v d1, dist1 !! v = Some d1 →
      ∃ d2, dist2 !! v = Some d2 ∧ d2 ≤ d1 ∧ (v ∈ spt1 → d2 = d1).
Proof.
  intros Hnd Hl Hloop1.
  assert (length l1 + length l2 + length l3 = num_vertices g)%nat as Hlen.
  { unfold num_vertices. rewrite Hl, !length_app. lia. }
  destruct (dijkstras_loop_inv g l1 0 (dijkstras_init g s, ∅) Hnd)
    as (st1 & Hloop1' & Hli1); [apply loop_inv_init|simpl; lia|].
  unfold dijkstras_loop in *. rewrite Hloop1 in Hloop1'. simplify_eq.
  destruct (dijkstras_loop_invariant g
              (λ st, spt1 ⊆ st.2 ∧
                     ∀ v d1, dist1 !! v = Some d1 →
                       ∃ d2, st.1 !! v = Some d2 ∧ d2 ≤ d1 ∧ (v ∈ spt1 → d2 = d1))
              l2 (0 + length l1) (dist1, spt1) Hnd)
    as ([dist2 spt2] & Hloop2 & _ & Hsub & Hle); [|done|lia| |].
  - intros k dist spt_set u du dist' _ _ [Hsub Hle] _ _ Hdist'.
    cbn [fst snd] in *. split; [set_solver|].
    intros v d1 Hd1. destruct (Hle v d1 Hd1) as (d2 & Hd2 & Hd21 & Hfix).
    rewrite Hdist', Hd2. case_decide as Hcase; [|by exists d2].
    simpl. exists (relaxed g u du v d2). split; [done|].
    pose proof (relaxed_le g u du v d2). split; [lia|].
    intros Hv. exfalso. destruct Hcase as [_ Hout]. apply Hout. set_solver.
  - cbn [fst snd]. split; [done|]. intros v d1 Hd1. by exists d1.
  - exists dist2, spt2. rewrite for_each_app, Hloop1. cbn [mbind option_bind].
    by split_and!.
Qed.

(** * The fault of [min_distance] *)

Lemma min_distance_loop_fault (dist : gmap vertex Z) (spt_set : gset vertex)
    (l : list vertex) st :
  for_each (min_distance_step dist spt_set) l st = None ↔
  ∃ v, v ∈ l ∧ (v ∉ spt_set) ∧ dist !! v = None.
Proof.
  revert st. induction l as [|x l IH]; intros st.
  - split; [done|]. intros (v & Hv & _). by apply elem_of_nil in Hv.
  - cbn [for_each]. destruct (decide (x ∈ spt_set)) as [Hx|Hx].
    + rewrite min_distance_step_skip by done. cbn [mbind option_bind].
      rewrite IH. split; intros (v & Hv & Hv' & Hd).
      * exists v. split_and!; [by right|done..].
      * apply elem_of_cons in Hv as [->|Hv]; [done|]. by exists v.
    + destruct (dist !! x) as [d|] eqn:Hd.
      * rewrite (min_distance_step_take _ _ _ _ d) by done.
        cbn [mbind option_bind]. rewrite IH.
        split; intros (v & Hv & Hv' & Hdv).
        -- exists v. split_and!; [by right|done..].
        -- apply elem_of_cons in Hv as [->|Hv]; [congruence|]. by exists v.
      * unfold min_distance_step. rewrite decide_False, Hd by done.
        split; [|done]. intros _. exists x. split_and!; [left|done..].
Qed.

(** X6: [min_distance] faults (the [at] of the distance map throws) exactly
    when some vertex of the graph outside [spt_set] has no entry in the
    map; entries of processed vertices are never looked up. *)
Theorem min_distance_fault g (dist : gmap vertex Z) (spt_set : gset vertex) :
  min_distance g dist spt_set = None ↔
  ∃ v, v ∈ vertices g ∧ (v ∉ spt_set) ∧ dist !! v = None.
Proof.
  rewrite <-min_distance_loop_fault with (st := (None, INT_MAX)).
  unfold min_distance, min_distance_scan.
  by destruct (for_each _ _ _).
Qed.

(** * Further properties of [connected_components] *)

(** A component returned for a seed holds exactly what the seed reaches. *)
Lemma component_of_vertices g a x :
  wf_graph g → a ∈ vertices g →
  x ∈ vertices (component_of g a) ↔ reachable g a x.
Proof.
  intros Hwf Ha. destruct (component_of_spec g a Hwf Ha) as (Hset & _).
  by rewrite <-elem_of_vertex_set, Hset, elem_of_depth_first.
Qed.

(** X7: the vertices of a returned component are a whole class of
    mutually reachable vertices: a vertex of the input graph belongs to the
    component of [x] exactly when a path joins it to [x]. *)
Theorem connected_components_maximal g c x y :
  wf_graph g → c ∈ connected_components g → x ∈ vertices c →
  y ∈ vertices c ↔ reachable g x y.
Proof.
  intros Hwf Hc Hx.
  destruct (connected_components_seeds g Hwf) as (seeds & Heq & Hin & _).
  rewrite Heq in Hc. apply list_elem_of_fmap in Hc as (a & -> & Ha).
  apply Hin in Ha. rewrite component_of_vertices in Hx by done.
  rewrite component_of_vertices by done. split.
  - intros Hy. etrans; [by apply reachable_sym|done].
  - intros Hxy. by etrans.
Qed.

(** X8: a returned component is a well-formed graph whose edges are the
    edges of the input graph between its vertices, with their weights; and
    every edge of the input graph is in one of the components. *)
Theorem connected_components_induced g :
  wf_graph g →
  (∀ c, c ∈ connected_components g →
     wf_graph c ∧
     ∀ a b w, weights c !! (a, b) = Some w ↔
              a ∈ vertices c ∧ b ∈ vertices c ∧ weights g !! (a, b) = Some w) ∧
  (∀ a b w, weights g !! (a, b) = Some w →
     ∃ c, c ∈ connected_components g ∧ weights c !! (a, b) = Some w).
Proof.
  intros Hwf.
  destruct (connected_components_seeds g Hwf) as (seeds & Heq & Hin & _ & Hcov).
  rewrite Heq. split.
  - intros c (s & -> & Hs%Hin)%list_elem_of_fmap.
    pose proof (component_of_wf g s Hwf Hs) as Hcwf.
    split; [done|]. intros a b w.
    destruct (component_of_spec g s Hwf Hs) as (Hset & _ & Hw).
    rewrite Hw, <-!elem_of_vertex_set, Hset. split; [|naive_solver].
    intros [Ha Hg]. split_and!; [done| |done].
    apply elem_of_depth_first; [done..|]. eapply rtc_r; [|by exists w].
    by apply elem_of_depth_first.
  - intros a b w Hw. destruct (wf_edges g Hwf _ _ _ Hw) as [Ha _].
    specialize (Hcov a Ha).
    apply elem_of_union_list in Hcov as (R & (s & -> & Hs)%list_elem_of_fmap & HaR).
    exists (component_of g s). split; [apply list_elem_of_fmap; by exists s|].
    by apply (component_of_spec g s Hwf (Hin s Hs)).
Qed.

(** A connected graph with a vertex has one seed. *)
Lemma connected_graph_one_seed g :
  wf_graph g → vertices g ≠ [] → is_connected g = true →
  ∃ a, a ∈ vertices g ∧ connected_components g = [component_of g a].
Proof.
  intros Hwf Hne Hconn. rewrite is_connected_spec in Hconn by done.
  destruct (connected_components_seeds g Hwf) as (seeds & Heq & Hin & Hok & Hcov).
  destruct seeds as [|a [|b rest]].
  - destruct (vertices g) as [|v l]; [done|].
    specialize (Hcov v). simpl in Hcov. set_solver.
  - exists a. split; [apply Hin; left|done].
  - exfalso. destruct Hok as [_ [Hb _]]. apply Hb.
    apply elem_of_union_l. apply elem_of_depth_first; [done|apply Hin; left|].
    apply Hconn; apply Hin; [left|right; left].
Qed.

(** X9: on a connected graph with at least one vertex,
    [connected_components] returns a single graph, which has the vertices
    and the weighted edges of the input graph. *)
Theorem connected_components_of_connected g :
  wf_graph g → vertices g ≠ [] → is_connected g = true →
  ∃ c, connected_components g = [c] ∧
       vertex_set c = vertex_set g ∧ weights c = weights g.
Proof.
  intros Hwf Hne Hconn.
  destruct (connected_graph_one_seed g Hwf Hne Hconn) as (a & Ha & ->).
  rewrite is_connected_spec in Hconn by done.
  destruct (component_of_spec g a Hwf Ha) as (Hset & _ & Hw).
  assert (depth_first g a = vertex_set g) as Hall.
  { apply set_eq. intros x. rewrite elem_of_vertex_set. split.
    - intros Hx. eapply reachable_in_graph; [done..|]. by apply elem_of_depth_first.
    - intros Hx. apply elem_of_depth_first; [done..|]. by apply Hconn. }
  exists (component_of g a). split_and!; [done|by rewrite Hset|].
  apply map_eq. intros [x y]. apply option_eq. intros w.
  rewrite Hw, Hall, elem_of_vertex_set. split; [naive_solver|].
  intros Hg. split; [|done]. by destruct (wf_edges g Hwf _ _ _ Hg).
Qed.

(** X10: the first graph returned is the component of the first vertex of
    the enumeration: components come in the order in which the enumeration
    meets them. *)
Theorem connected_components_first g first rest :
  wf_graph g → vertices g = first :: rest →
  ∃ c cs, connected_components g = c :: cs ∧
          ∀ x, x ∈ vertices c ↔ reachable g first x.
Proof.
  intros Hwf Hl. assert (first ∈ vertices g) as Hf by (rewrite Hl; left).
  unfold connected_components. rewrite Hl. cbn [foldl].
  rewrite components_step_eq, decide_False by set_solver.
  destruct (components_loop_spec g rest ([] ++ [component_of g first])
              (depth_first g first ∪ ∅) Hwf) as (seeds & -> & _).
  { intros v Hv. rewrite Hl. by right. }
  exists (component_of g first), (component_of g <$> seeds).
  split; [done|]. intros x. by apply component_of_vertices.
Qed.

(** * Further properties of [articulation_points] *)

(** X11: the vertices reported are vertices of the graph, in the order of
    its enumeration and each at most once. *)
Theorem articulation_points_sublist g :
  wf_graph g →
  articulation_points g `sublist_of` vertices g ∧
  NoDup (articulation_points g).
Proof.
  intros Hwf.
  assert (articulation_points g `sublist_of` vertices g) as Hsub.
  { rewrite articulation_points_filter. apply sublist_filter. }
  split; [done|]. eapply sublist_NoDup; [apply Hwf|exact Hsub].
Qed.

Lemma remove_vertex_reachable v g x y :
  reachable (remove_vertex v g) x y → reachable g x y.
Proof.
  induction 1 as [|a b c [w Hw] _ IH]; [done|].
  eapply rtc_l; [|done]. exists w.
  by apply map_lookup_filter_Some in Hw as [Hw _].
Qed.

(** X12: on a graph that is not connected, a vertex is reported as soon as
    two other vertices are joined by no path, whether or not its removal
    separates anything: what is tested is the connectivity of the
    remainder. *)
Theorem articulation_points_disconnected g x y v :
  wf_graph g →
  x ∈ vertices g → y ∈ vertices g → ¬ reachable g x y →
  v ∈ vertices g → v ≠ x → v ≠ y →
  v ∈ articulation_points g.
Proof.
  intros Hwf Hx Hy Hnot Hv Hvx Hvy.
  rewrite articulation_points_filter. apply list_elem_of_filter. split; [|done].
  apply is_connected_false; [by apply remove_vertex_wf|].
  exists x, y. simpl. rewrite !list_elem_of_filter.
  split_and!; [done..|]. intros Hr. by apply Hnot, (remove_vertex_reachable v).
Qed.

(** * How [dijkstras] composes with connectivity and with itself *)

(** The result of [dijkstras] on a graph with non-negative weights and
    [short_paths_bounded], vertex by vertex. *)
Lemma dijkstras_each_vertex g s :
  wf_graph g → s ∈ vertices g →
  nonneg_weights g → short_paths_bounded g s →
  ∃ m, dijkstras g s = Some m ∧
       ∀ t, t ∈ vertices g →
         ∃ d, m !! t = Some d ∧
              ((d < INT_MAX ∧ is_shortest g s t d) ∨
               (d = INT_MAX ∧ ¬ reachable g s t)).
Proof.
  intros Hwf Hs Hnonneg Hshort.
  pose proof (short_paths_simple_paths g s Hwf Hshort) as Hsimple.
  destruct (dijkstras_loop_correct g s Hwf Hs Hnonneg Hsimple (vertices g) 0
              (dijkstras_init g s, ∅))
    as ([dist spt_set] & Hloop & (_ & Hsub & Hsz) & Hinv);
    [apply loop_inv_init|by apply dijkstra_inv_init|done|].
  cbn [fst snd] in *. exists dist. split.
  { unfold dijkstras, dijkstras_loop. by rewrite Hloop. }
  assert (spt_set = vertex_set g) as ->.
  { apply set_subseteq_size_eq; [done|].
    rewrite size_vertex_set by apply Hwf. unfold num_vertices. lia. }
  destruct Hinv as [Hrange Hsound Hfinal _ _]. cbn [fst snd] in *.
  intros t Ht. destruct (Hrange t Ht) as (d & Hd & Hd').
  assert (t ∈ vertex_set g) as Ht' by (by apply elem_of_vertex_set).
  exists d. split; [done|].
  destruct (decide (d = INT_MAX)) as [->|Hne].
  - right. split; [done|]. intros [d0 Hp]%reachable_path; [|done].
    destruct (Hfinal t INT_MAX d0 Ht' Hd Hp). lia.
  - left. split; [lia|]. split.
    + destruct (Hsound t d Ht Hd) as (p & Hp & _); [lia|]. by eapply simple_path_path.
    + intros d' Hp'. by apply (Hfinal t d d' Ht' Hd Hp').
Qed.

(** X13: on a graph with non-negative weights and [short_paths_bounded],
    [is_connected] holds exactly when [dijkstras], from any source, leaves
    no vertex at the sentinel. *)
Theorem is_connected_iff_all_finite g s :
  wf_graph g → s ∈ vertices g →
  nonneg_weights g → short_paths_bounded g s →
  ∃ m, dijkstras g s = Some m ∧
       (is_connected g = true ↔
        ∀ t, t ∈ vertices g → m !! t ≠ Some INT_MAX).
Proof.
  intros Hwf Hs Hnonneg Hshort.
  destruct (dijkstras_each_vertex g s Hwf Hs Hnonneg Hshort) as (m & Hm & Hall).
  exists m. split; [done|]. rewrite is_connected_spec by done. split.
  - intros Hconn t Ht Hinf.
    destruct (Hall t Ht) as (d & Hd & [[Hlt _]|[_ Hnot]]).
    + rewrite Hd in Hinf. simplify_eq. lia.
    + by apply Hnot, Hconn.
  - intros Hfin x y Hx Hy.
    assert (∀ t, t ∈ vertices g → reachable g s t) as Hreach.
    { intros t Ht. destruct (Hall t Ht) as (d & Hd & [[_ [Hp _]]|[-> _]]).
      - by eapply path_reachable.
      - by destruct (Hfin t Ht). }
    etrans; [apply reachable_sym; [done|]|]; by apply Hreach.
Qed.

Lemma path_cons g x s t w d :
  x ∈ vertices g → weights g !! (x, s) = Some w → path g s t d →
  path g x t (w + d).
Proof.
  intros Hx Hw. induction 1 as [|v y d w' _ IH Hw'].
  - replace (w + 0) with (0 + w) by lia. econstructor; [by constructor|done].
  - replace (w + (d + w')) with (w + d + w') by lia. by econstructor.
Qed.

(** In an undirected graph a path can be walked backwards. *)
Lemma path_reverse g s t d : wf_graph g → path g s t d → path g t s d.
Proof.
  intros Hwf. induction 1 as [|v x d w Hp IH Hw]; [by constructor|].
  replace (d + w) with (w + d) by lia.
  apply (path_cons g x v s w d); [|by rewrite (wf_sym g Hwf)|done].
  by destruct (wf_edges g Hwf _ _ _ Hw).
Qed.

(** X14: distances are symmetric: on a graph with non-negative weights and
    short paths bounded from both ends, the distance that [dijkstras]
    returns for [t] from the source [s] is the one it returns for [s] from
    the source [t]. *)
Theorem dijkstras_symmetric g s t :
  wf_graph g → s ∈ vertices g → t ∈ vertices g → nonneg_weights g →
  short_paths_bounded g s → short_paths_bounded g t →
  ∃ ms mt, dijkstras g s = Some ms ∧ dijkstras g t = Some mt ∧
           ms !! t = mt !! s.
Proof.
  intros Hwf Hs Ht Hnonneg Hshort_s Hshort_t.
  destruct (dijkstras_each_vertex g s Hwf Hs Hnonneg Hshort_s) as (ms & Hms & Hall_s).
  destruct (dijkstras_each_vertex g t Hwf Ht Hnonneg Hshort_t) as (mt & Hmt & Hall_t).
  exists ms, mt. split_and!; [done..|].
  destruct (Hall_s t Ht) as (ds & -> & Hcase_s).
  destruct (Hall_t s Hs) as (dt & -> & Hcase_t). f_equal.
  destruct Hcase_s as [[_ [Hps Hmin_s]]|[-> Hnot_s]],
           Hcase_t as [[_ [Hpt Hmin_t]]|[-> Hnot_t]].
  - pose proof (Hmin_s dt (path_reverse g t s dt Hwf Hpt)).
    pose proof (Hmin_t ds (path_reverse g s t ds Hwf Hps)). lia.
  - exfalso. apply Hnot_t, reachable_sym; [done|]. by eapply path_reachable.
  - exfalso. apply Hnot_s, reachable_sym; [done|]. by eapply path_reachable.
  - done.
Qed.

End graph_proofs.

(** * Scenarios *)

(** The scenarios of the specification. *)
Example dijkstras_triangle :
  dijkstras triangle 0%nat = Some (<[0%nat := 0]> (<[1%nat := 1]> {[2%nat := 3]})).
Proof. vm_compute. reflexivity. Qed.

Example articulation_points_path_graph : articulation_points path_graph = [1%nat].
Proof. vm_compute. reflexivity. Qed.

Example connected_components_two_triangles :
  (λ c, (num_vertices c, size (weights c))) <$> connected_components two_triangles
  = [(3%nat, 6%nat); (3%nat, 6%nat)].
Proof. vm_compute. reflexivity. Qed.

(** With wrap-around a sum of two non-negative weights becomes negative. *)
Example dijkstras_overflow_triangle :
  dijkstras overflow_triangle 0%nat
  = Some (<[0%nat := 0]> (<[1%nat := -2147483648]> {[2%nat := 2147483646]})).
Proof. vm_compute. reflexivity. Qed.

Lemma bounded_weights_triangle : bounded_weights triangle.
Proof. map_forall_compute. Qed.





(** * Instances of the theorems and failing instances of the claims *)

Lemma connected_components_partition_witness :
  wf_graph two_triangles ∧
  (⋃ (vertex_set <$> connected_components two_triangles) = vertex_set two_triangles ∧
   ∀ i j ci cj, i ≠ j →
     connected_components two_triangles !! i = Some ci →
     connected_components two_triangles !! j = Some cj →
     vertex_set ci ## vertex_set cj).
Proof.
  split; [apply graph_of_wf|].
  apply (connected_components_partition two_triangles), graph_of_wf.
Defined.

Lemma connected_components_connected_witness :
  wf_graph two_triangles ∧
  component_of two_triangles 3%nat ∈ connected_components two_triangles ∧
  is_empty (component_of two_triangles 3%nat) = false ∧
  is_connected (component_of two_triangles 3%nat) = true.
Proof.
  assert (component_of two_triangles 3%nat ∈ connected_components two_triangles) as Hin.
  { apply (list_elem_of_lookup_2 _ 1%nat). vm_compute. reflexivity. }
  split_and!; [apply graph_of_wf|exact Hin|..];
    apply (connected_components_connected two_triangles _ (graph_of_wf _ _) Hin).
Defined.

Lemma is_connected_iff_one_component_witness :
  wf_graph two_triangles ∧
  ((is_connected two_triangles = true ↔
      length (connected_components two_triangles) = 1%nat ∨
      num_vertices two_triangles = 0%nat) ∧
   (num_vertices two_triangles = 0%nat →
      connected_components two_triangles = [] ∧ is_connected two_triangles = true)).
Proof.
  split; [apply graph_of_wf|].
  apply (is_connected_iff_one_component two_triangles), graph_of_wf.
Defined.

Lemma zero_vertex_graph_witness :
  num_vertices (@empty_graph nat _ _) = 0%nat ∧
  is_empty (@empty_graph nat _ _) = true ∧
  is_connected (@empty_graph nat _ _) = true ∧
  connected_components (@empty_graph nat _ _) = [] ∧
  dijkstras (@empty_graph nat _ _) 7%nat = Some ∅ ∧
  articulation_points (@empty_graph nat _ _) = [].
Proof.
  split; [reflexivity|]. apply (zero_vertex_graph (@empty_graph nat _ _) 7%nat).
  reflexivity.
Defined.



Lemma min_distance_picks_last_witness :
  wf_graph tie_graph ∧ vertices tie_graph = [0%nat] ++ 1%nat :: [2%nat] ∧
  ∃ dist spt_set u d,
    dijkstras_loop tie_graph 0%nat [0%nat] = Some (dist, spt_set) ∧
    min_distance tie_graph dist spt_set = Some u ∧
    last_minimum tie_graph dist spt_set u d.
Proof.
  split_and!; [apply graph_of_wf|reflexivity|].
  apply (min_distance_picks_last tie_graph 0%nat [0%nat] 1%nat [2%nat]);
    [apply graph_of_wf|reflexivity].
Defined.

(** The claim C5 as it is stated fails: in the second iteration on
    [tie_graph] the unprocessed vertices 1 and 2 are both at distance 1, and
    [min_distance] returns 2, which is not the first of them. *)
Lemma min_distance_first_counterexample :
  wf_graph tie_graph ∧ vertices tie_graph = [0%nat] ++ 1%nat :: [2%nat] ∧
  ∃ dist spt_set u,
    dijkstras_loop tie_graph 0%nat [0%nat] = Some (dist, spt_set) ∧
    min_distance tie_graph dist spt_set = Some u ∧
    ∀ d, ¬ first_minimum tie_graph dist spt_set u d.
Proof.
  split_and!; [apply graph_of_wf|reflexivity|].
  exists (<[0%nat := 0]> (<[1%nat := 1]> {[2%nat := 1]})), {[0%nat]}, 2%nat.
  split_and!; [vm_compute; reflexivity..|].
  intros d (before & after & Hl & _ & Hd & Hb & _).
  change (vertices tie_graph) with [0%nat; 1%nat; 2%nat] in Hl.
  vm_compute in Hd. injection Hd as <-.
  destruct before as [|b0 [|b1 [|b2 before]]]; simplify_eq/=.
  - specialize (Hb 1%nat 1). assert (1 < 1); [|lia].
    apply Hb; [set_solver|set_solver|reflexivity].
  - by destruct before.
Qed.

Lemma min_distance_initialised_witness :
  wf_graph triangle ∧ vertices triangle = [0%nat] ++ [1%nat; 2%nat] ∧
  ∃ dist spt_set,
    dijkstras_loop triangle 0%nat [0%nat] = Some (dist, spt_set) ∧
    spt_set ⊆ vertex_set triangle ∧ size spt_set = length [0%nat] ∧
    ([1%nat; 2%nat] ≠ [] →
     (∃ v d, v ∈ vertices triangle ∧ (v ∉ spt_set) ∧ dist !! v = Some d ∧
             d ≤ INT_MAX) ∧
     ∃ u d, min_distance_scan triangle dist spt_set = Some (Some u, d) ∧
            min_distance triangle dist spt_set = Some u ∧
            u ∈ vertices triangle ∧ u ∉ spt_set).
Proof.
  split_and!; [apply graph_of_wf|reflexivity|].
  apply (min_distance_initialised triangle 0%nat [0%nat] [1%nat; 2%nat]);
    [apply graph_of_wf|reflexivity].
Defined.

Lemma articulation_points_spec_witness :
  wf_graph path_graph ∧
  ((∀ v, v ∈ articulation_points path_graph ↔
         v ∈ vertices path_graph ∧ disconnected (remove_vertex v path_graph)) ∧
   ((num_vertices path_graph ≤ 2)%nat → articulation_points path_graph = [])).
Proof.
  split; [apply graph_of_wf|].
  apply (articulation_points_spec path_graph), graph_of_wf.
Defined.

Lemma call_preserves_graph_witness :
  wf_graph path_graph ∧
  ({[5%nat := path_graph]} : gmap nat weighted_graph) !! 5%nat = Some path_graph ∧
  ∃ r σ', call OpArticulationPoints 5%nat {[5%nat := path_graph]} = Some (r, σ') ∧
          σ' !! 5%nat = Some path_graph ∧ σ' = {[5%nat := path_graph]}.
Proof.
  split_and!; [apply graph_of_wf|apply lookup_singleton_eq|].
  apply (call_preserves_graph OpArticulationPoints 5%nat path_graph);
    [apply graph_of_wf|apply lookup_singleton_eq].
Defined.

Lemma repeated_calls_agree_witness :
  wf_graph path_graph ∧
  traversal_ok (λ (g : @weighted_graph nat _ _) u, elements (depth_first g u)) ∧
  traversal_ok (λ (g : @weighted_graph nat _ _) u,
                  reverse (elements (depth_first g u))) ∧
  (∃ m, dijkstras_with (λ _, 5%nat) path_graph 0%nat = Some m ∧
        dijkstras_with (λ i, (i + 7)%nat) path_graph 0%nat = Some m) ∧
  articulation_points_with (λ g u, elements (depth_first g u)) path_graph
  = articulation_points_with (λ g u, reverse (elements (depth_first g u)))
      path_graph.
Proof.
  split_and!; [apply graph_of_wf|apply traversal_elements_ok|
               apply traversal_reverse_ok|..];
    apply (repeated_calls_agree path_graph 0%nat (λ _, 5%nat) (λ i, (i + 7)%nat)
             (λ g u, elements (depth_first g u))
             (λ g u, reverse (elements (depth_first g u)))
             (graph_of_wf _ _) traversal_elements_ok traversal_reverse_ok).
Defined.

(** * Instances of the further properties *)

Lemma two_triangles_apart : ¬ reachable two_triangles 0%nat 3%nat.
Proof.
  intros Hr. apply elem_of_depth_first in Hr; [|apply graph_of_wf|vm_compute; left].
  vm_compute in Hr. discriminate.
Qed.

Lemma dijkstras_keys_witness :
  NoDup (vertices triangle) ∧
  ∃ m, dijkstras triangle 0%nat = Some m ∧
       dom m = if is_empty triangle then ∅ else {[0%nat]} ∪ vertex_set triangle.
Proof.
  split; [apply graph_of_wf|].
  apply (dijkstras_keys triangle 0%nat), graph_of_wf.
Defined.

Lemma dijkstras_source_zero_witness :
  NoDup (vertices triangle) ∧ 0%nat ∈ vertices triangle ∧
  ∃ m, dijkstras triangle 0%nat = Some m ∧ m !! 0%nat = Some 0.
Proof.
  assert (0%nat ∈ vertices triangle) as Hs by (vm_compute; left).
  split_and!; [apply graph_of_wf|exact Hs|].
  apply (dijkstras_source_zero triangle 0%nat); [apply graph_of_wf|exact Hs].
Defined.

Lemma dijkstras_unreachable_sentinel_witness :
  NoDup (vertices two_triangles) ∧ 3%nat ∈ vertices two_triangles ∧
  ¬ reachable two_triangles 0%nat 3%nat ∧
  ∃ m, dijkstras two_triangles 0%nat = Some m ∧ m !! 3%nat = Some INT_MAX.
Proof.
  assert (3%nat ∈ vertices two_triangles) as Ht by (vm_compute; do 3 right; left).
  split_and!; [apply graph_of_wf|exact Ht|exact two_triangles_apart|].
  apply (dijkstras_unreachable_sentinel two_triangles 0%nat 3%nat);
    [apply graph_of_wf|exact Ht|exact two_triangles_apart].
Defined.

Lemma dijkstras_absent_source_witness :
  NoDup (vertices triangle) ∧ vertices triangle ≠ [] ∧
  (7%nat ∉ vertices triangle) ∧
  ∃ m, dijkstras triangle 7%nat = Some m ∧ m !! 7%nat = Some 0 ∧
       ∀ t, t ∈ vertices triangle → m !! t = Some INT_MAX.
Proof.
  assert (vertices triangle ≠ []) as Hne by (vm_compute; discriminate).
  assert (7%nat ∉ vertices triangle) as Hs.
  { change (vertices triangle) with [0%nat; 1%nat; 2%nat]. set_solver. }
  split_and!; [apply graph_of_wf|exact Hne|exact Hs|].
  apply (dijkstras_absent_source triangle 7%nat);
    [apply graph_of_wf|exact Hne|exact Hs].
Defined.

Lemma dijkstras_loop_monotone_witness :
  NoDup (vertices triangle) ∧
  vertices triangle = [0%nat] ++ [1%nat] ++ [2%nat] ∧
  dijkstras_loop triangle 0%nat [0%nat]
    = Some (<[0%nat := 0]> (<[1%nat := 1]> {[2%nat := 4]}), {[0%nat]}) ∧
  ∃ dist2 spt2,
    dijkstras_loop triangle 0%nat ([0%nat] ++ [1%nat]) = Some (dist2, spt2) ∧
    {[0%nat]} ⊆ spt2 ∧
    ∀ v d1, (<[0%nat := 0]> (<[1%nat := 1]> {[2%nat := 4]}) : gmap nat Z) !! v = Some d1 →
      ∃ d2, dist2 !! v = Some d2 ∧ d2 ≤ d1 ∧ (v ∈ ({[0%nat]} : gset nat) → d2 = d1).
Proof.
  assert (dijkstras_loop triangle 0%nat [0%nat]
    = Some (<[0%nat := 0]> (<[1%nat := 1]> {[2%nat := 4]}), {[0%nat]})) as Hloop
    by (vm_compute; reflexivity).
  split_and!; [apply graph_of_wf|reflexivity|exact Hloop|].
  apply (dijkstras_loop_monotone triangle 0%nat [0%nat] [1%nat] [2%nat]);
    [apply graph_of_wf|reflexivity|exact Hloop].
Defined.

Lemma connected_components_maximal_witness :
  wf_graph two_triangles ∧
  component_of two_triangles 3%nat ∈ connected_components two_triangles ∧
  3%nat ∈ vertices (component_of two_triangles 3%nat) ∧
  (4%nat ∈ vertices (component_of two_triangles 3%nat) ↔
   reachable two_triangles 3%nat 4%nat).
Proof.
  assert (component_of two_triangles 3%nat ∈ connected_components two_triangles) as Hin.
  { apply (list_elem_of_lookup_2 _ 1%nat). vm_compute. reflexivity. }
  assert (3%nat ∈ vertices (component_of two_triangles 3%nat)) as Hx.
  { apply (list_elem_of_lookup_2 _ 2%nat). vm_compute. reflexivity. }
  split_and!; [apply graph_of_wf|exact Hin|exact Hx|].
  apply (connected_components_maximal two_triangles _ 3%nat 4%nat);
    [apply graph_of_wf|exact Hin|exact Hx].
Defined.

Lemma connected_components_induced_witness :
  wf_graph two_triangles ∧
  ((∀ c, c ∈ connected_components two_triangles →
      wf_graph c ∧
      ∀ a b w, weights c !! (a, b) = Some w ↔
               a ∈ vertices c ∧ b ∈ vertices c ∧
               weights two_triangles !! (a, b) = Some w) ∧
   (∀ a b w, weights two_triangles !! (a, b) = Some w →
      ∃ c, c ∈ connected_components two_triangles ∧ weights c !! (a, b) = Some w)).
Proof.
  split; [apply graph_of_wf|].
  apply (connected_components_induced two_triangles), graph_of_wf.
Defined.

Lemma connected_components_of_connected_witness :
  wf_graph triangle ∧ vertices triangle ≠ [] ∧ is_connected triangle = true ∧
  ∃ c, connected_components triangle = [c] ∧
       vertex_set c = vertex_set triangle ∧ weights c = weights triangle.
Proof.
  assert (vertices triangle ≠ []) as Hne by (vm_compute; discriminate).
  assert (is_connected triangle = true) as Hconn by (vm_compute; reflexivity).
  split_and!; [apply graph_of_wf|exact Hne|exact Hconn|].
  apply (connected_components_of_connected triangle);
    [apply graph_of_wf|exact Hne|exact Hconn].
Defined.

Lemma connected_components_first_witness :
  wf_graph two_triangles ∧
  vertices two_triangles = 0%nat :: [1; 2; 3; 4; 5]%nat ∧
  ∃ c cs, connected_components two_triangles = c :: cs ∧
          ∀ x, x ∈ vertices c ↔ reachable two_triangles 0%nat x.
Proof.
  split_and!; [apply graph_of_wf|reflexivity|].
  apply (connected_components_first two_triangles 0%nat [1; 2; 3; 4; 5]%nat);
    [apply graph_of_wf|reflexivity].
Defined.

Lemma articulation_points_sublist_witness :
  wf_graph path_graph ∧
  articulation_points path_graph `sublist_of` vertices path_graph ∧
  NoDup (articulation_points path_graph).
Proof.
  split; [apply graph_of_wf|].
  apply (articulation_points_sublist path_graph), graph_of_wf.
Defined.

Lemma articulation_points_disconnected_witness :
  wf_graph two_triangles ∧
  0%nat ∈ vertices two_triangles ∧ 3%nat ∈ vertices two_triangles ∧
  ¬ reachable two_triangles 0%nat 3%nat ∧
  1%nat ∈ vertices two_triangles ∧ 1%nat ≠ 0%nat ∧ 1%nat ≠ 3%nat ∧
  1%nat ∈ articulation_points two_triangles.
Proof.
  assert (0%nat ∈ vertices two_triangles) as Hx by (vm_compute; left).
  assert (3%nat ∈ vertices two_triangles) as Hy by (vm_compute; do 3 right; left).
  assert (1%nat ∈ vertices two_triangles) as Hv by (vm_compute; right; left).
  split_and!; [apply graph_of_wf|exact Hx|exact Hy|exact two_triangles_apart|
               exact Hv|lia|lia|].
  apply (articulation_points_disconnected two_triangles 0%nat 3%nat 1%nat);
    [apply graph_of_wf|exact Hx|exact Hy|exact two_triangles_apart|exact Hv|lia|lia].
Defined.

Lemma is_connected_iff_all_finite_witness :
  wf_graph triangle ∧ 0%nat ∈ vertices triangle ∧
  nonneg_weights triangle ∧ short_paths_bounded triangle 0%nat ∧
  ∃ m, dijkstras triangle 0%nat = Some m ∧
       (is_connected triangle = true ↔
        ∀ t, t ∈ vertices triangle → m !! t ≠ Some INT_MAX).
Proof.
  assert (0%nat ∈ vertices triangle) as Hs by (vm_compute; left).
  destruct (bounded_weights_short_paths triangle 0%nat bounded_weights_triangle)
    as [Hnonneg Hshort].
  split_and!; [apply graph_of_wf|exact Hs|exact Hnonneg|exact Hshort|].
  apply (is_connected_iff_all_finite triangle 0%nat);
    [apply graph_of_wf|exact Hs|exact Hnonneg|exact Hshort].
Defined.

Lemma dijkstras_symmetric_witness :
  wf_graph triangle ∧ 0%nat ∈ vertices triangle ∧ 2%nat ∈ vertices triangle ∧
  nonneg_weights triangle ∧
  short_paths_bounded triangle 0%nat ∧ short_paths_bounded triangle 2%nat ∧
  ∃ ms mt, dijkstras triangle 0%nat = Some ms ∧ dijkstras triangle 2%nat = Some mt ∧
           ms !! 2%nat = mt !! 0%nat.
Proof.
  assert (0%nat ∈ vertices triangle) as Hs by (vm_compute; left).
  assert (2%nat ∈ vertices triangle) as Ht by (vm_compute; do 2 right; left).
  destruct (bounded_weights_short_paths triangle 0%nat bounded_weights_triangle)
    as [Hnonneg Hshort_s].
  destruct (bounded_weights_short_paths triangle 2%nat bounded_weights_triangle)
    as [_ Hshort_t].
  split_and!; [apply graph_of_wf|exact Hs|exact Ht|exact Hnonneg|
               exact Hshort_s|exact Hshort_t|].
  apply (dijkstras_symmetric triangle 0%nat 2%nat);
    [apply graph_of_wf|exact Hs|exact Ht|exact Hnonneg|exact Hshort_s|exact Hshort_t].
Defined.
